(** * Code-bot relay: a shallow embedding of [server.js]

    The relay is an Express application with three POST routes
    ([/api/chat], [/api/explain], [/api/explain/stream]), one helper that
    calls the upstream generative-language API ([callGemini]) and one
    rule-based responder ([localFallback]).  This development embeds the
    handlers as programs of a small state-and-completion monad, the string
    and regular-expression built-ins they use as executable functions on
    UTF-16 code units, and proves the properties of the specification
    about them. *)

From Stdlib Require Import String Ascii.
From Stdlib Require Import List NArith ZArith Bool Arith Lia PrimFloat.
From Stdlib Require SpecFloat FloatOps.
Import ListNotations.
Local Open Scope list_scope.
Local Open Scope bool_scope.

Set Implicit Arguments.
Set Warnings "-register-all,-abstract-large-number,-inexact-float".

(** ** JavaScript strings

    A JavaScript string is a sequence of UTF-16 code units; [length],
    [split], [trim] and the regular expressions of the relay (none has
    the [u] flag) all work on code units. *)

Abbreviation cu := N (only parsing).
Abbreviation jsstring := (list N).

(** An ASCII literal of the source as a JavaScript string. *)
Definition lit (s : string) : jsstring :=
  map N_of_ascii (list_ascii_of_string s).

Definition str_eqb (a b : jsstring) : bool :=
  if list_eq_dec N.eq_dec a b then true else false.

(** [s] as a condition: the empty string is the only falsy string. *)
Definition nonempty (s : jsstring) : bool :=
  match s with [] => false | _ :: _ => true end.

Definition in_range (lo hi c : cu) : bool := (lo <=? c)%N && (c <=? hi)%N.

(** WhiteSpace and LineTerminator of ECMAScript: what [\s] matches and
    what [trim] strips. *)
Definition is_space (c : cu) : bool :=
  in_range 9 13 c || (c =? 32)%N || (c =? 160)%N || (c =? 5760)%N
  || in_range 8192 8202 c || (c =? 8232)%N || (c =? 8233)%N
  || (c =? 8239)%N || (c =? 8287)%N || (c =? 12288)%N || (c =? 65279)%N.

(** [\w] without the [u] and [i] flags: [[A-Za-z0-9_]]. *)
Definition is_word (c : cu) : bool :=
  in_range 97 122 c || in_range 65 90 c || in_range 48 57 c || (c =? 95)%N.

Fixpoint trim_start (s : jsstring) : jsstring :=
  match s with
  | c :: r => if is_space c then trim_start r else s
  | [] => []
  end.

Definition trim_end (s : jsstring) : jsstring := rev (trim_start (rev s)).

(** [String.prototype.trim]. *)
Definition trim (s : jsstring) : jsstring := trim_end (trim_start s).

(** [String.prototype.toLowerCase].  The relay only tests the result
    against regular expressions over ASCII letters and [\b], so the map is
    given on every code unit whose lower case contains an ASCII code unit:
    [A-Z], U+212A KELVIN SIGN (to [k]) and U+0130 (to [i] followed by
    U+0307).  Every other mapping of the Unicode tables sends a non-ASCII
    code unit to non-ASCII code units, which the tests cannot tell apart;
    they are kept as they are. *)
Definition lower_cu (c : cu) : jsstring :=
  if in_range 65 90 c then [(c + 32)%N]
  else if (c =? 8490)%N then [107%N]
  else if (c =? 304)%N then [105%N; 775%N]
  else [c].

Definition toLowerCase (s : jsstring) : jsstring := flat_map lower_cu s.

(** [Array.prototype.join]. *)
Fixpoint join (sep : jsstring) (l : list jsstring) : jsstring :=
  match l with
  | [] => []
  | [x] => x
  | x :: r => x ++ sep ++ join sep r
  end.

(** Decimal digits of a non-negative integer, as [String(n)] prints it. *)
Fixpoint dec_digits (fuel : nat) (n : N) (acc : jsstring) : jsstring :=
  match fuel with
  | O => acc
  | S f =>
    let acc' := (48 + n mod 10)%N :: acc in
    if (n <? 10)%N then acc' else dec_digits f (n / 10)%N acc'
  end.

Definition dec (n : N) : jsstring := dec_digits (S (N.to_nat (N.log2 n))) n [].

(** ** Regular expressions

    The fragment of ECMAScript patterns the relay uses, with the
    backtracking semantics of the language: alternatives are tried left to
    right, [*] is greedy, and an iteration that matches the empty string
    is refused. *)

Inductive regex : Type :=
| Eps
| Chr (c : cu)
| Cls (p : cu -> bool)
| Seq (r1 r2 : regex)
| Alt (r1 r2 : regex)
| Star (r : regex)
| Bol
| WordB
| Behind (p : cu -> bool).

Definition Plus (r : regex) : regex := Seq r (Star r).
Definition Opt (r : regex) : regex := Alt r Eps.

Fixpoint Str (s : jsstring) : regex :=
  match s with
  | [] => Eps
  | [c] => Chr c
  | c :: r => Seq (Chr c) (Str r)
  end.

Fixpoint AltOf (l : list regex) : regex :=
  match l with
  | [] => Cls (fun _ => false)
  | [r] => r
  | r :: l' => Alt r (AltOf l')
  end.

(** A position in the subject: the code units before it (nearest first)
    and those from it on. *)
Record cursor : Type := { before : list cu; after : list cu }.

Definition advance (c : cursor) : option (cu * cursor) :=
  match after c with
  | [] => None
  | x :: r => Some (x, {| before := x :: before c; after := r |})
  end.

Definition word_before (c : cursor) : bool :=
  match before c with x :: _ => is_word x | [] => false end.

Definition word_after (c : cursor) : bool :=
  match after c with x :: _ => is_word x | [] => false end.

(** The iterations of a greedy [*]: [step k c] matches the body once at
    [c] and continues with [k].  Another iteration is tried first, and it
    must consume something; when none succeeds the loop is left. *)
Definition star_loop (step : (cursor -> option cursor) -> cursor -> option cursor)
  (k : cursor -> option cursor) : nat -> cursor -> option cursor :=
  fix loop (n : nat) (c : cursor) {struct n} : option cursor :=
    match n with
    | O => k c
    | S n' =>
      match step (fun c' =>
                    if length (after c') <? length (after c)
                    then loop n' c' else None) c with
      | Some e => Some e
      | None => k c
      end
    end.

(** [rmatch r fuel k c]: match [r] at [c] and continue with [k]; the
    first success in backtracking order is the result.  [fuel] bounds the
    iterations of each [Star]; an iteration consumes at least one code
    unit, so the length of the subject plus one is always enough. *)
Fixpoint rmatch (r : regex) (fuel : nat) (k : cursor -> option cursor)
  (c : cursor) {struct r} : option cursor :=
  match r with
  | Eps => k c
  | Chr x =>
    match advance c with
    | Some (y, c') => if (x =? y)%N then k c' else None
    | None => None
    end
  | Cls p =>
    match advance c with
    | Some (y, c') => if p y then k c' else None
    | None => None
    end
  | Seq r1 r2 => rmatch r1 fuel (rmatch r2 fuel k) c
  | Alt r1 r2 =>
    match rmatch r1 fuel k c with
    | Some e => Some e
    | None => rmatch r2 fuel k c
    end
  | Star r1 => star_loop (rmatch r1 fuel) k fuel c
  | Bol => match before c with [] => k c | _ :: _ => None end
  | WordB => if xorb (word_before c) (word_after c) then k c else None
  | Behind p =>
    match before c with
    | x :: _ => if p x then k c else None
    | [] => None
    end
  end.

(** The match of [r] that starts at [c], if any: the position where it ends. *)
Definition rexec (r : regex) (c : cursor) : option cursor :=
  rmatch r (S (length (after c))) Some c.

(** The leftmost match at or after the position ([pre], [suf]). *)
Fixpoint rsearch (r : regex) (pre suf : list cu) : option (cursor * cursor) :=
  let c := {| before := pre; after := suf |} in
  match rexec r c with
  | Some e => Some (c, e)
  | None =>
    match suf with
    | [] => None
    | x :: suf' => rsearch r (x :: pre) suf'
    end
  end.

(** [RegExp.prototype.test] for a pattern without the [g] and [y] flags:
    the search starts at index 0 and leaves no state behind. *)
Definition regex_test (r : regex) (s : jsstring) : bool :=
  match rsearch r [] s with Some _ => true | None => false end.

(** [String.prototype.split] with a regular expression that has no
    capture group and no limit.  [cur] holds, nearest first, the code
    units of the piece being built (from index [p] of the algorithm to the
    current index [q]); a match at [q] that ends at [p] is skipped. *)
Fixpoint split_loop (fuel : nat) (r : regex) (cur pre suf : list cu)
  : list jsstring :=
  match fuel with
  | O => [rev cur ++ suf]
  | S f =>
    match suf with
    | [] => [rev cur]
    | x :: suf' =>
      match rexec r {| before := pre; after := suf |} with
      | Some e =>
        if nonempty cur || (length (after e) <? length suf)
        then rev cur :: split_loop f r [] (before e) (after e)
        else split_loop f r (x :: cur) (x :: pre) suf'
      | None => split_loop f r (x :: cur) (x :: pre) suf'
      end
    end
  end.

Definition regex_split (r : regex) (s : jsstring) : list jsstring :=
  match s with
  | [] =>
    match rexec r {| before := []; after := [] |} with
    | Some _ => []
    | None => [[]]
    end
  | _ :: _ => split_loop (2 * length s + 2) r [] [] s
  end.

(** ** JavaScript values

    The values the relay handles: what [JSON.parse] produces (request
    bodies, upstream responses), what it passes to [res.json], and
    [undefined].  Numbers are IEEE 754 binary64.  An object is the list of
    its own properties, each key once. *)

Inductive jsval : Type :=
| VUndefined
| VNull
| VBool (b : bool)
| VNum (x : float)
| VStr (s : jsstring)
| VArr (l : list jsval)
| VObj (m : list (jsstring * jsval)).

(** ToBoolean. *)
Definition truthy (v : jsval) : bool :=
  match v with
  | VUndefined | VNull => false
  | VBool b => b
  | VNum x => negb (PrimFloat.eqb x 0) && PrimFloat.eqb x x
  | VStr s => nonempty s
  | VArr _ | VObj _ => true
  end.

Fixpoint lookup (k : jsstring) (m : list (jsstring * jsval)) : jsval :=
  match m with
  | [] => VUndefined
  | (k', v) :: m' => if str_eqb k k' then v else lookup k m'
  end.

(** [v.k] for the property names the relay reads ([message], [code],
    [mode], [language], [model], [candidates], [content], [parts],
    [text]): none of them is a property of a primitive, of an array or of
    a prototype, so only an object's own property can answer. *)
Definition get_prop (k : jsstring) (v : jsval) : jsval :=
  match v with
  | VObj m => lookup k m
  | _ => VUndefined
  end.

(** [v[0]]: the first element of an array, the first code unit of a
    string, the property ["0"] of an object. *)
Definition get_index0 (v : jsval) : jsval :=
  match v with
  | VArr (x :: _) => x
  | VStr (c :: _) => VStr [c]
  | VObj m => lookup (lit "0") m
  | _ => VUndefined
  end.

Definition nullish (v : jsval) : bool :=
  match v with VUndefined | VNull => true | _ => false end.

(** Optional chaining: [v?.k] and [v?.[0]]. *)
Definition opt_prop (k : jsstring) (v : jsval) : jsval :=
  if nullish v then VUndefined else get_prop k v.

Definition opt_index0 (v : jsval) : jsval :=
  if nullish v then VUndefined else get_index0 v.

(** Thrown values: [Error] objects, with their [name] and [message]. *)
Record exn : Type := { ename : jsstring; emsg : jsstring }.

Definition Error (msg : jsstring) : exn :=
  {| ename := lit "Error"; emsg := msg |}.

Definition TypeError (msg : jsstring) : exn :=
  {| ename := lit "TypeError"; emsg := msg |}.

(** [String(err)], that is [Error.prototype.toString]. *)
Definition String_of_exn (e : exn) : jsstring :=
  if negb (nonempty (ename e)) then emsg e
  else if negb (nonempty (emsg e)) then ename e
  else ename e ++ lit ": " ++ emsg e.

Definition has_own (k : jsstring) (m : list (jsstring * jsval)) : bool :=
  existsb (fun kv => str_eqb k (fst kv)) m.

Section ToString.

(** [Number::toString] is a built-in of the language. *)
Variable Number_toString : float -> jsstring.

(** ToString, as a template literal applies it to [${v}].  An array
    prints its elements joined by commas, [null] and [undefined] elements
    as nothing; a plain object prints as [[object Object]], unless it has
    an own property [toString] (a JSON value, so not callable), in which
    case the conversion to a primitive fails. *)
Fixpoint ToString (v : jsval) : exn + jsstring :=
  match v with
  | VUndefined => inr (lit "undefined")
  | VNull => inr (lit "null")
  | VBool true => inr (lit "true")
  | VBool false => inr (lit "false")
  | VNum x => inr (Number_toString x)
  | VStr s => inr s
  | VArr l =>
    match
      (fix elems (l : list jsval) : exn + list jsstring :=
         match l with
         | [] => inr []
         | x :: l' =>
           match (if nullish x then inr [] else ToString x) with
           | inl e => inl e
           | inr s =>
             match elems l' with
             | inl e => inl e
             | inr r => inr (s :: r)
             end
           end
         end) l
    with
    | inl e => inl e
    | inr ss => inr (join (lit ",") ss)
    end
  | VObj m =>
    if has_own (lit "toString") m
    then inl (TypeError (lit "Cannot convert object to primitive value"))
    else inr (lit "[object Object]")
  end.

End ToString.

(** ** Effects

    A handler runs against a world: the calls made to the upstream API so
    far, the lines written to the console, and the response under
    construction.  A statement completes normally, by [return], or by
    throwing. *)

Record fetch_request : Type := {
  url : jsstring;
  method : jsstring;
  req_headers : list (jsstring * option jsstring);
  req_body : jsstring
}.

(** What the upstream answers, once it has answered: the promise of
    [fetch] is rejected (transport failure), or it yields a response with
    its status, its body as [res.text()] gives it and as [res.json()]
    gives it (a value, or the error thrown when the body is not JSON).
    A promise that never settles is not among the outcomes: [callGemini]
    awaits it with no timeout, so a request whose call never settles
    never gets its answer, and every statement below is about calls that
    settle. *)
Inductive fetch_outcome : Type :=
| FetchRejected (e : exn)
| FetchResponse (status : N) (text : jsstring) (parsed : exn + jsval).

Inductive body_part : Type :=
| Json (v : jsval)
| Text (s : jsstring).

Record response : Type := {
  statusCode : N;
  headers : list (jsstring * jsstring);
  out : list body_part;
  ended : bool
}.

Definition fresh_response : response :=
  {| statusCode := 200; headers := []; out := []; ended := false |}.

Record world : Type := {
  upstream_calls : list fetch_request;
  console : list (jsstring * exn);
  res : response
}.

Definition fresh_world : world :=
  {| upstream_calls := []; console := []; res := fresh_response |}.

Inductive completion (R A : Type) : Type :=
| Normal (a : A)
| Returned (r : R)
| Thrown (e : exn).

Arguments Normal {R A} a.
Arguments Returned {R A} r.
Arguments Thrown {R A} e.

Definition M (R A : Type) : Type := world -> completion R A * world.

Definition ret {R A} (a : A) : M R A := fun w => (Normal a, w).

Definition bind {R A B} (m : M R A) (f : A -> M R B) : M R B :=
  fun w =>
    match m w with
    | (Normal a, w') => f a w'
    | (Returned r, w') => (Returned r, w')
    | (Thrown e, w') => (Thrown e, w')
    end.

Notation "x <- m ;; k" := (bind m (fun x => k))
  (at level 61, m at next level, right associativity).
Notation "m ;; k" := (bind m (fun _ => k))
  (at level 61, right associativity).

(** [return v;] and [throw e;]. *)
Definition return_ {R A} (r : R) : M R A := fun w => (Returned r, w).
Definition throw {R A} (e : exn) : M R A := fun w => (Thrown e, w).

(** [try { body } catch (err) { handler }]: a [return] inside [body]
    leaves the function, an exception runs the handler. *)
Definition try_catch {R A} (body : M R A) (handler : exn -> M R A) : M R A :=
  fun w =>
    match body w with
    | (Thrown e, w') => handler e w'
    | other => other
    end.

(** Calling (and awaiting) a function whose body is [f]: its [return]
    value, or [undefined] when the body runs to its end. *)
Definition call {R} (f : M jsval unit) : M R jsval :=
  fun w =>
    match f w with
    | (Normal _, w') => (Normal VUndefined, w')
    | (Returned v, w') => (Normal v, w')
    | (Thrown e, w') => (Thrown e, w')
    end.

Definition when {R} (b : bool) (m : M R unit) : M R unit :=
  if b then m else ret tt.

Definition lift {R A} (r : exn + A) : M R A :=
  match r with inl e => throw e | inr a => ret a end.

Definition update_res {R} (f : response -> response) : M R unit :=
  fun w =>
    (Normal tt,
     {| upstream_calls := upstream_calls w; console := console w; res := f (res w) |}).

(** The methods of the Express response the handlers call. *)
Definition res_status {R} (n : N) : M R unit :=
  update_res (fun r =>
    {| statusCode := n; headers := headers r; out := out r; ended := ended r |}).

Definition res_setHeader {R} (k v : jsstring) : M R unit :=
  update_res (fun r =>
    {| statusCode := statusCode r; headers := headers r ++ [(k, v)];
       out := out r; ended := ended r |}).

Definition res_write {R} (s : jsstring) : M R unit :=
  update_res (fun r =>
    {| statusCode := statusCode r; headers := headers r;
       out := out r ++ [Text s]; ended := ended r |}).

Definition res_end {R} : M R unit :=
  update_res (fun r =>
    {| statusCode := statusCode r; headers := headers r;
       out := out r; ended := true |}).

Definition res_end_with {R} (s : jsstring) : M R unit :=
  res_write s ;; res_end.

Definition res_json {R} (v : jsval) : M R unit :=
  update_res (fun r =>
    {| statusCode := statusCode r; headers := headers r;
       out := out r ++ [Json v]; ended := true |}).

Definition console_error {R} (label : jsstring) (e : exn) : M R unit :=
  fun w =>
    (Normal tt,
     {| upstream_calls := upstream_calls w;
        console := console w ++ [(label, e)]; res := res w |}).

Fixpoint for_each {R A} (l : list A) (f : A -> M R unit) : M R unit :=
  match l with
  | [] => ret tt
  | x :: l' => f x ;; for_each l' f
  end.

(** ** Built-ins of the language used by the relay *)

Definition nl : jsstring := [10%N].
Definition dquote : jsstring := [34%N].

Definition hex_digit (n : N) : cu := (if n <? 10 then 48 + n else 55 + n)%N.

Definition percent (byte : N) : jsstring :=
  [37; hex_digit (byte / 16); hex_digit (byte mod 16)]%N.

(** [A-Za-z0-9] and [-_.!~*'()], which [encodeURIComponent] keeps. *)
Definition uri_unreserved (c : cu) : bool :=
  in_range 97 122 c || in_range 65 90 c || in_range 48 57 c
  || existsb (N.eqb c) [45; 95; 46; 33; 126; 42; 39; 40; 41]%N.

Definition utf8 (cp : N) : jsstring :=
  if (cp <? 128)%N then percent cp
  else if (cp <? 2048)%N then
    percent (192 + cp / 64)%N ++ percent (128 + cp mod 64)%N
  else if (cp <? 65536)%N then
    percent (224 + cp / 4096)%N ++ percent (128 + (cp / 64) mod 64)%N
    ++ percent (128 + cp mod 64)%N
  else
    percent (240 + cp / 262144)%N ++ percent (128 + (cp / 4096) mod 64)%N
    ++ percent (128 + (cp / 64) mod 64)%N ++ percent (128 + cp mod 64)%N.

(** [encodeURIComponent]: a surrogate pair is one code point, a lone
    surrogate is a [URIError]. *)
Fixpoint encodeURIComponent (s : jsstring) : exn + jsstring :=
  let malformed := inl {| ename := lit "URIError"; emsg := lit "URI malformed" |} in
  let cons_ok (h : jsstring) (r : exn + jsstring) :=
    match r with inl e => inl e | inr t => inr (h ++ t) end in
  match s with
  | [] => inr []
  | c :: r =>
    if uri_unreserved c then cons_ok [c] (encodeURIComponent r)
    else if in_range 56320 57343 c then malformed
    else if in_range 55296 56319 c then
      match r with
      | d :: r' =>
        if in_range 56320 57343 d
        then cons_ok (utf8 ((c - 55296) * 1024 + (d - 56320) + 65536)%N)
                     (encodeURIComponent r')
        else malformed
      | [] => malformed
      end
    else cons_ok (utf8 c) (encodeURIComponent r)
  end.

Definition is_digit (c : cu) : bool := in_range 48 57 c.

Fixpoint digits_value (acc : N) (s : jsstring) : N * nat :=
  match s with
  | c :: r =>
    if is_digit c then
      let '(v, n) := digits_value (acc * 10 + (c - 48))%N r in (v, S n)
    else (acc, O)
  | [] => (acc, O)
  end.

(** The Number nearest to a non-negative integer. *)
Definition float_of_N (n : N) : float :=
  FloatOps.SF2Prim (SpecFloat.binary_normalize 53 1024 (Z.of_N n) 0 false).

(** [parseInt(s, 10)]: leading white space and a sign are skipped, the
    longest prefix of decimal digits is the value, and there is no value
    ([NaN]) when that prefix is empty. *)
Definition parseInt10 (s : jsstring) : float :=
  let t := trim_start s in
  let '(neg, u) :=
    match t with
    | 45%N :: r => (true, r)
    | 43%N :: r => (false, r)
    | _ => (false, t)
    end in
  match digits_value 0 u with
  | (_, O) => PrimFloat.nan
  | (v, S _) => if neg then PrimFloat.opp (float_of_N v) else float_of_N v
  end.

(** [s.replace(r, '')] for a pattern without the [g] flag: the leftmost
    match is removed. *)
Definition remove_first (r : regex) (s : jsstring) : jsstring :=
  match rsearch r [] s with
  | Some (b, e) => rev (before b) ++ after e
  | None => s
  end.

(** [l.replace(/\t/g, '  ')]. *)
Definition replace_tabs (l : jsstring) : jsstring :=
  flat_map (fun c => if (c =? 9)%N then [32; 32]%N else [c]) l.

(** ** The patterns of the source *)

Definition sp : regex := Cls is_space.
Definition wordc : regex := Cls is_word.
Definition S_ (s : string) : regex := Str (lit s).

(** [[.?!]] *)
Definition sentence_end (c : cu) : bool := (c =? 46)%N || (c =? 63)%N || (c =? 33)%N.

(** [/(?<=[.?!])\s+/] *)
Definition sentence_sep : regex := Seq (Behind sentence_end) (Plus sp).

(** [/\b(workout|exercise|plan|routine)\b/] *)
Definition workout_re : regex :=
  Seq WordB (Seq (AltOf [S_ "workout"; S_ "exercise"; S_ "plan"; S_ "routine"]) WordB).

(** [/\b(diet|calorie|protein|meal)\b/] *)
Definition diet_re : regex :=
  Seq WordB (Seq (AltOf [S_ "diet"; S_ "calorie"; S_ "protein"; S_ "meal"]) WordB).

(** [/\b(hi|hello|hey)\b/] *)
Definition greeting_re : regex :=
  Seq WordB (Seq (AltOf [S_ "hi"; S_ "hello"; S_ "hey"]) WordB).

(** [/\r?\n/] *)
Definition newline_re : regex := Seq (Opt (Chr 13)) (Chr 10).

(** ** The Local Fallback Responder ([localFallback]) *)

Definition workout_reply : jsstring :=
  lit "Sample full-body routine (local fallback):" ++ nl
  ++ lit "- Squats 3x10" ++ nl
  ++ lit "- Push-ups 3x8-12" ++ nl
  ++ lit "- Rows 3x8-12" ++ nl
  ++ lit "- Plank 3x30s" ++ nl
  ++ lit "Do this 3x/week. (This is the local fallback - enable Gemini API for richer replies.)".

Definition diet_reply : jsstring :=
  lit "Local diet tip: prioritize protein (1.6-2.2 g/kg), eat whole foods, and reduce processed sugars.".

(** The dash of the greeting is U+2014. *)
Definition greeting_reply : jsstring :=
  lit "Hey " ++ [8212%N]
  ++ lit " I'm FitBuddy. Ask me for workout plans, diet tips, or motivation.".

Definition catch_all_reply : jsstring :=
  lit "I didn't understand. Try asking " ++ dquote
  ++ lit "Give me a 30 minute full-body home workout" ++ dquote
  ++ lit " or " ++ dquote
  ++ lit "How many calories should I eat to lose weight?" ++ dquote.

(** [(message || '').toLowerCase()]: only a string has the method. *)
Definition lowered (message : jsval) : exn + jsstring :=
  match (if truthy message then message else VStr []) with
  | VStr s => inr (toLowerCase s)
  | _ => inl (TypeError (lit "(message || ...).toLowerCase is not a function"))
  end.

(** The chain of tests on [msg], the lower-cased message. *)
Definition canned_reply (msg : jsstring) : jsstring :=
  if regex_test workout_re msg then workout_reply
  else if regex_test diet_re msg then diet_reply
  else if regex_test greeting_re msg then greeting_reply
  else catch_all_reply.

Definition localFallback (message : jsval) : exn + jsstring :=
  match lowered message with
  | inl e => inl e
  | inr msg => inr (canned_reply msg)
  end.

(** ** The Chunking Splitter (the loop of [/api/explain/stream]) *)

Definition maxChunk : nat := 240.

(** One turn of [for (const s of sentences)], on the pair ([chunks], [buf]). *)
Definition chunk_step (st : list jsstring * jsstring) (s : jsstring)
  : list jsstring * jsstring :=
  let '(chunks, buf) := st in
  if maxChunk <? length (buf ++ lit " " ++ s) then
    if nonempty buf then (chunks ++ [trim buf], s)
    else (chunks ++ [trim s], [])
  else (chunks, if nonempty buf then buf ++ lit " " ++ s else s).

Definition chunks_of_sentences (sentences : list jsstring) : list jsstring :=
  let '(chunks, buf) := fold_left chunk_step sentences ([], []) in
  if nonempty buf then chunks ++ [trim buf] else chunks.

Definition sentences_of (explanation : jsstring) : list jsstring :=
  regex_split sentence_sep explanation.

Definition split_chunks (explanation : jsstring) : list jsstring :=
  chunks_of_sentences (sentences_of explanation).

(** ** The local heuristic explainer ([naiveExplain]) *)

Definition starts (r : regex) : regex := Seq Bol r.
Definition sp_star : regex := Star sp.

Definition summary_of (joined : jsstring) : jsstring :=
  if regex_test (S_ "print(") joined
  then lit "This snippet prints output to the console."
  else if regex_test (Seq (S_ "def") (Seq (Plus sp) (Seq (Plus wordc) (Chr 40)))) joined
  then lit "This snippet defines one or more functions."
  else if regex_test (Seq (S_ "class") (Seq (Plus sp) (Plus wordc))) joined
  then lit "This snippet defines a class."
  else if regex_test (Seq (S_ "import") (Plus sp)) joined
  then lit "This snippet imports external modules."
  else lit "Small code snippet " ++ [8212%N] ++ lit " general purpose. Try " ++ dquote
       ++ lit "Line-by-line" ++ dquote ++ lit " mode for more detail.".

(** The explanation of one non-blank line: [raw] is the line, [t] its trim. *)
Definition explain_line (raw t : jsstring) : jsstring :=
  let line r := regex_test (starts (Seq sp_star r)) in
  if regex_test (starts (Seq sp_star (Chr 35))) raw || regex_test (starts (S_ "//")) raw
  then lit "Comment: "
       ++ trim (remove_first (Alt (starts (Chr 35)) (starts (S_ "//"))) t)
  else if line (S_ "console.log(") t || line (S_ "print(") t
  then lit "Prints a value to the console."
  else if line (Seq (S_ "return") WordB) t
  then lit "Returns a value from the current function."
  else if line (Seq (S_ "def") (Seq (Plus sp) (Seq (Plus wordc) (Seq sp_star (Chr 40))))) t
          || line (Seq (S_ "function") (Seq (Plus sp) (Plus wordc))) t
  then lit "Defines a function."
  else if line (Seq (S_ "class") (Seq (Plus sp) (Plus wordc))) t
  then lit "Defines a class/type."
  else if line (Seq (S_ "for") (Plus sp)) t || line (Seq (S_ "while") (Plus sp)) t
  then lit "Loop: iterates over items or condition."
  else if line (Seq (S_ "if") (Plus sp)) t || line (Seq (S_ "else") WordB) t
  then lit "Conditional branch."
  else if line (Seq (S_ "import") WordB) t || line (Seq (S_ "from") WordB) t
  then lit "Imports external module(s)."
  else lit "Executes: " ++ t.

(** The body of [for (let i = 0; i < lines.length; i++)], from index [i]. *)
Fixpoint explain_lines (i : N) (lines : list jsstring) : list jsstring :=
  match lines with
  | [] => []
  | raw :: rest =>
    let t := trim raw in
    if negb (nonempty t) then explain_lines (i + 1) rest
    else (lit "Line " ++ dec (i + 1) ++ lit ": " ++ t ++ nl
          ++ lit "  " ++ [8594%N] ++ lit " " ++ explain_line raw t)
         :: explain_lines (i + 1) rest
  end.

Fixpoint doc_lines (i : N) (lines : list jsstring) : list jsstring :=
  match lines with
  | [] => []
  | l :: rest => (lit "L" ++ dec (i + 1) ++ lit ": " ++ trim l) :: doc_lines (i + 1) rest
  end.

Definition is_str (s : string) (v : jsval) : bool :=
  match v with VStr t => str_eqb t (lit s) | _ => false end.

Definition naiveExplain (codeStr mode : jsval) : exn + jsstring :=
  match codeStr with
  | VStr code =>
    let lines := map replace_tabs (regex_split newline_re code) in
    if is_str "summary" mode then inr (summary_of (toLowerCase code))
    else if is_str "doc" mode then
      inr (lit "Description:" ++ nl ++ join nl (doc_lines 0 (firstn 6 lines))
           ++ nl ++ nl ++ lit "(Use a real LLM for fuller documentation.)")
    else if is_str "refactor" mode then
      inr (lit "Refactor suggestion:" ++ nl
           ++ lit "- Consider smaller functions, clearer variable names, and adding comments."
           ++ nl
           ++ lit "- Run a linter or formatter (e.g., Prettier/Black) to normalize style.")
    else inr (join (nl ++ nl) (explain_lines 0 lines))
  | _ => inl (TypeError (lit "codeStr.split is not a function"))
  end.

(** ** The relay *)

Definition obj2 (k1 : string) (v1 : jsval) (k2 : string) (v2 : jsval) : jsval :=
  VObj [(lit k1, v1); (lit k2, v2)].

Definition error_obj (msg : string) : jsval := VObj [(lit "error", VStr (lit msg))].

(** A destructuring default, [{ k = d }]: it replaces [undefined] only. *)
Definition default_to (d : string) (v : jsval) : jsval :=
  match v with VUndefined => VStr (lit d) | _ => v end.

(** The message of [/api/explain] when no key is configured. *)
Definition no_key_message : string :=
  "Server is configured to use Gemini for explanations but GEMINI_API_KEY is not set. Please add GEMINI_API_KEY to your .env.".

Section Relay.

(** [process.env.GEMINI_API_KEY] and [process.env.GEMINI_MAX_OUTPUT_TOKENS]:
    a string, or [undefined] ([None]). *)
Variable GEMINI_API_KEY : option jsstring.
Variable GEMINI_MAX_OUTPUT_TOKENS : option jsstring.

(** The upstream provider, and the two serializers of the language. *)
Variable fetch : fetch_request -> fetch_outcome.
Variable JSON_stringify : jsval -> jsstring.
Variable Number_toString : float -> jsstring.

(** An environment variable as a condition. *)
Definition is_set (v : option jsstring) : bool :=
  match v with Some s => nonempty s | None => false end.

Definition await_fetch {R} (rq : fetch_request) : M R fetch_outcome :=
  fun w =>
    (Normal (fetch rq),
     {| upstream_calls := upstream_calls w ++ [rq]; console := console w; res := res w |}).

Definition model : jsstring := lit "gemini-2.5-flash".

Definition defaultMax : float :=
  match GEMINI_MAX_OUTPUT_TOKENS with
  | Some (c :: v) => parseInt10 (c :: v)
  | _ => 512%float
  end.

(** The [body] object of [callGemini]. *)
Definition gemini_body (promptText : jsstring) : jsval :=
  VObj [
    (lit "contents",
     VArr [obj2 "role" (VStr (lit "user"))
                "parts" (VArr [VObj [(lit "text", VStr promptText)]])]);
    (lit "generationConfig",
     obj2 "maxOutputTokens" (VNum defaultMax) "temperature" (VNum 0.2%float))
  ].

Definition gemini_request (promptText : jsstring) (encoded_model : jsstring)
  : fetch_request :=
  {| url := lit "https://generativelanguage.googleapis.com/v1beta/models/"
            ++ encoded_model ++ lit ":generateContent";
     method := lit "POST";
     req_headers := [(lit "Content-Type", Some (lit "application/json"));
                     (lit "x-goog-api-key", GEMINI_API_KEY)];
     req_body := JSON_stringify (gemini_body promptText) |}.

(** [res.ok] of node-fetch. *)
Definition status_ok (status : N) : bool := in_range 200 299 status.

(** [candidate?.content?.parts?.[0]?.text] with
    [candidate = data?.candidates?.[0]]. *)
Definition first_part_text (data : jsval) : jsval :=
  let candidate := opt_index0 (opt_prop (lit "candidates") data) in
  opt_prop (lit "text")
    (opt_index0 (opt_prop (lit "parts") (opt_prop (lit "content") candidate))).

Definition callGemini (promptText : jsstring) : M jsval unit :=
  encoded <- lift (encodeURIComponent model) ;;
  r <- await_fetch (gemini_request promptText encoded) ;;
  match r with
  | FetchRejected e => throw e
  | FetchResponse status errorText parsed =>
    when (negb (status_ok status))
      (throw (Error (lit "Gemini API error " ++ dec status ++ lit ": " ++ errorText))) ;;
    data <- lift parsed ;;
    try_catch
      (let partText := first_part_text data in
       when (truthy partText) (return_ partText))
      (fun _ => ret tt) ;;
    return_ (VStr (JSON_stringify data))
  end.

(** The prompt of both explain routes. *)
Definition explain_prompt (code mode language : jsval) : exn + jsstring :=
  match ToString Number_toString mode with
  | inl e => inl e
  | inr m =>
    match ToString Number_toString language with
    | inl e => inl e
    | inr l =>
      match ToString Number_toString code with
      | inl e => inl e
      | inr c =>
        inr (lit "You are a helpful code explainer. The user requested mode=" ++ m
             ++ lit " and language=" ++ l ++ lit ". Provide a clear " ++ m
             ++ lit " of the code below." ++ nl ++ nl ++ lit "Code:" ++ nl ++ c)
      end
    end
  end.

Definition chat_prompt (message : jsval) : exn + jsstring :=
  match ToString Number_toString message with
  | inl e => inl e
  | inr m =>
    inr (lit "You are FitBuddy, a concise friendly fitness coach. Answer the user's question clearly and with practical steps. If user asks for a workout, include sets/reps/time. Keep it brief."
         ++ nl ++ nl ++ lit "User: " ++ m)
  end.

(** [req.body || {}] *)
Definition body_or_empty (body : jsval) : jsval :=
  if truthy body then body else VObj [].

(** [explanation.split(...)] and the loop after it; only a string has
    the method. *)
Definition chunks_of (explanation : jsval) : exn + list jsstring :=
  match (if truthy explanation then explanation else VStr []) with
  | VStr s => inr (split_chunks s)
  | _ => inl (TypeError (lit "explanation.split is not a function"))
  end.

(** [app.post('/api/explain/stream', ...)] *)
Definition explain_stream_handler (body : jsval) : M unit unit :=
  try_catch
    (let b := body_or_empty body in
     let code := get_prop (lit "code") b in
     let mode := default_to "summary" (get_prop (lit "mode") b) in
     let language := default_to "auto" (get_prop (lit "language") b) in
     when (negb (truthy code))
       (res_status 400 ;; res_json (error_obj "No code provided") ;; return_ tt) ;;
     when (negb (is_set GEMINI_API_KEY))
       (res_status 400 ;;
        res_json (error_obj "GEMINI_API_KEY is not set in server environment") ;;
        return_ tt) ;;
     prompt <- lift (explain_prompt code mode language) ;;
     res_setHeader (lit "Content-Type") (lit "text/plain; charset=utf-8") ;;
     res_setHeader (lit "Cache-Control") (lit "no-cache") ;;
     res_setHeader (lit "Connection") (lit "keep-alive") ;;
     explanation <-
       try_catch (call (callGemini prompt))
         (fun err =>
            console_error (lit "Gemini explain failed:") err ;;
            res_status 502 ;; res_write (lit "Error: Gemini API failed" ++ nl) ;;
            res_end ;; return_ tt) ;;
     chunks <- lift (chunks_of explanation) ;;
     for_each chunks (fun c => res_write (c ++ nl)) ;;
     res_end)
    (fun err =>
       console_error [] err ;; res_status 500 ;; res_end_with (lit "Server error")).

(** [app.post('/api/chat', ...)] *)
Definition chat_handler (body : jsval) : M unit unit :=
  try_catch
    (let message := get_prop (lit "message") (body_or_empty body) in
     when (negb (truthy message))
       (res_status 400 ;; res_json (error_obj "No message provided") ;; return_ tt) ;;
     when (negb (is_set GEMINI_API_KEY))
       (reply <- lift (localFallback message) ;;
        res_json (obj2 "reply" (VStr reply) "source" (VStr (lit "local-fallback"))) ;;
        return_ tt) ;;
     prompt <- lift (chat_prompt message) ;;
     replyText <-
       try_catch (call (callGemini prompt))
         (fun err =>
            console_error (lit "Gemini API call failed:") err ;;
            fallback <- lift (localFallback message) ;;
            res_json (VObj [(lit "reply", VStr fallback);
                            (lit "source", VStr (lit "fallback"));
                            (lit "error", VStr (String_of_exn err))]) ;;
            return_ tt) ;;
     res_json (obj2 "reply" replyText "source" (VStr (lit "gemini"))) ;;
     return_ tt)
    (fun err =>
       console_error [] err ;; res_status 500 ;; res_json (error_obj "Server error")).

(** [app.post('/api/explain', ...)].  The [model] the source also
    destructures is not used.  The statements after the inner
    [try]/[catch] are those of the source: the call of [naiveExplain] and
    the response tagged [local-fallback]. *)
Definition explain_handler (body : jsval) : M unit unit :=
  try_catch
    (let b := body_or_empty body in
     let code := get_prop (lit "code") b in
     let mode := default_to "summary" (get_prop (lit "mode") b) in
     let language := default_to "auto" (get_prop (lit "language") b) in
     when (negb (truthy code))
       (res_status 400 ;; res_json (error_obj "No code provided") ;; return_ tt) ;;
     when (negb (is_set GEMINI_API_KEY))
       (res_status 400 ;;
        res_json (error_obj no_key_message) ;;
        return_ tt) ;;
     prompt <- lift (explain_prompt code mode language) ;;
     try_catch (A := unit)
       (explanation <- call (callGemini prompt) ;;
        res_json (obj2 "explanation" explanation "source" (VStr (lit "gemini"))) ;;
        return_ tt)
       (fun err =>
          console_error (lit "Gemini explain failed:") err ;;
          res_status 502 ;;
          res_json (obj2 "error" (VStr (lit "Gemini API error"))
                         "detail" (VStr (String_of_exn err))) ;;
          return_ tt) ;;
     explanation <- lift (naiveExplain code mode) ;;
     res_json (obj2 "explanation" (VStr explanation)
                    "source" (VStr (lit "local-fallback"))) ;;
     return_ tt)
    (fun err =>
       console_error [] err ;; res_status 500 ;;
       res_json (error_obj "Server error") ;; return_ tt).

(** A request served from a fresh response: the world it leaves. *)
Definition serve (handler : jsval -> M unit unit) (body : jsval) : world :=
  snd (handler body fresh_world).

(** What [callGemini] completes with, given the answer of the upstream. *)
Definition gemini_outcome (o : fetch_outcome) : completion jsval unit :=
  match o with
  | FetchRejected e => Thrown e
  | FetchResponse status errorText parsed =>
    if status_ok status then
      match parsed with
      | inl e => Thrown e
      | inr data =>
        if truthy (first_part_text data) then Returned (first_part_text data)
        else Returned (VStr (JSON_stringify data))
      end
    else Thrown (Error (lit "Gemini API error " ++ dec status ++ lit ": " ++ errorText))
  end.

End Relay.

(** The world after one more call to the upstream. *)
Definition log_call (w : world) (rq : fetch_request) : world :=
  {| upstream_calls := upstream_calls w ++ [rq]; console := console w; res := res w |}.

(** A response sent with [res.status(n).json(v)]. *)
Definition json_response (n : N) (v : jsval) : response :=
  {| statusCode := n; headers := []; out := [Json v]; ended := true |}.

(** The world a request leaves when it is refused with status 400 before
    anything else happens. *)
Definition refused (msg : string) : world :=
  {| upstream_calls := []; console := [];
     res := json_response 400 (error_obj msg) |}.

(** ** The routes as decision tables

    What each route leaves behind, case by case; the handlers above are
    proved to compute exactly this. *)

Definition stream_headers : list (jsstring * jsstring) :=
  [(lit "Content-Type", lit "text/plain; charset=utf-8");
   (lit "Cache-Control", lit "no-cache");
   (lit "Connection", lit "keep-alive")].

(** A response made of written texts, ended. *)
Definition text_response (n : N) (hs : list (jsstring * jsstring))
  (texts : list jsstring) : response :=
  {| statusCode := n; headers := hs; out := map Text texts; ended := true |}.

(** The value of [await f(...)] for a function that completed with [c]. *)
Definition returned_value (c : completion jsval unit) : exn + jsval :=
  match c with
  | Thrown e => inl e
  | Returned v => inr v
  | Normal _ => inr VUndefined
  end.

Definition internal_error : response := json_response 500 (error_obj "Server error").

(** A handler that ends by [return] or by reaching its last statement. *)
Definition completed (c : completion unit unit) : Prop :=
  c = Normal tt \/ c = Returned tt.

Section Denotation.

Variable GEMINI_API_KEY : option jsstring.
Variable GEMINI_MAX_OUTPUT_TOKENS : option jsstring.
Variable fetch : fetch_request -> fetch_outcome.
Variable JSON_stringify : jsval -> jsstring.
Variable Number_toString : float -> jsstring.

Definition request_of (promptText : jsstring) : fetch_request :=
  gemini_request GEMINI_API_KEY GEMINI_MAX_OUTPUT_TOKENS JSON_stringify
    promptText model.

(** What [await callGemini(prompt)] gives: the error thrown, or the value. *)
Definition upstream_answer (promptText : jsstring) : exn + jsval :=
  returned_value (gemini_outcome JSON_stringify (fetch (request_of promptText))).

Definition chat_world (body : jsval) : world :=
  let message := get_prop (lit "message") (body_or_empty body) in
  if negb (truthy message) then refused "No message provided"
  else if negb (is_set GEMINI_API_KEY) then
    match localFallback message with
    | inr reply =>
      {| upstream_calls := []; console := [];
         res := json_response 200
                  (obj2 "reply" (VStr reply) "source" (VStr (lit "local-fallback"))) |}
    | inl e => {| upstream_calls := []; console := [([], e)]; res := internal_error |}
    end
  else
    match chat_prompt Number_toString message with
    | inl e => {| upstream_calls := []; console := [([], e)]; res := internal_error |}
    | inr prompt =>
      match upstream_answer prompt with
      | inr v =>
        {| upstream_calls := [request_of prompt]; console := [];
           res := json_response 200 (obj2 "reply" v "source" (VStr (lit "gemini"))) |}
      | inl err =>
        match localFallback message with
        | inr fallback =>
          {| upstream_calls := [request_of prompt];
             console := [(lit "Gemini API call failed:", err)];
             res := json_response 200
                      (VObj [(lit "reply", VStr fallback);
                             (lit "source", VStr (lit "fallback"));
                             (lit "error", VStr (String_of_exn err))]) |}
        | inl e =>
          {| upstream_calls := [request_of prompt];
             console := [(lit "Gemini API call failed:", err); ([], e)];
             res := internal_error |}
        end
      end
    end.

Definition explain_world (body : jsval) : world :=
  let b := body_or_empty body in
  let code := get_prop (lit "code") b in
  if negb (truthy code) then refused "No code provided"
  else if negb (is_set GEMINI_API_KEY) then
    {| upstream_calls := []; console := [];
       res := json_response 400 (error_obj no_key_message) |}
  else
    match explain_prompt Number_toString code
            (default_to "summary" (get_prop (lit "mode") b))
            (default_to "auto" (get_prop (lit "language") b)) with
    | inl e => {| upstream_calls := []; console := [([], e)]; res := internal_error |}
    | inr prompt =>
      match upstream_answer prompt with
      | inr v =>
        {| upstream_calls := [request_of prompt]; console := [];
           res := json_response 200
                    (obj2 "explanation" v "source" (VStr (lit "gemini"))) |}
      | inl err =>
        {| upstream_calls := [request_of prompt];
           console := [(lit "Gemini explain failed:", err)];
           res := json_response 502
                    (obj2 "error" (VStr (lit "Gemini API error"))
                          "detail" (VStr (String_of_exn err))) |}
      end
    end.

Definition stream_world (body : jsval) : world :=
  let b := body_or_empty body in
  let code := get_prop (lit "code") b in
  if negb (truthy code) then refused "No code provided"
  else if negb (is_set GEMINI_API_KEY) then
    {| upstream_calls := []; console := [];
       res := json_response 400
                (error_obj "GEMINI_API_KEY is not set in server environment") |}
  else
    match explain_prompt Number_toString code
            (default_to "summary" (get_prop (lit "mode") b))
            (default_to "auto" (get_prop (lit "language") b)) with
    | inl e =>
      {| upstream_calls := []; console := [([], e)];
         res := text_response 500 [] [lit "Server error"] |}
    | inr prompt =>
      match upstream_answer prompt with
      | inl err =>
        {| upstream_calls := [request_of prompt];
           console := [(lit "Gemini explain failed:", err)];
           res := text_response 502 stream_headers
                    [lit "Error: Gemini API failed" ++ nl] |}
      | inr explanation =>
        match chunks_of explanation with
        | inr chunks =>
          {| upstream_calls := [request_of prompt]; console := [];
             res := text_response 200 stream_headers
                      (map (fun c => c ++ nl) chunks) |}
        | inl e =>
          {| upstream_calls := [request_of prompt]; console := [([], e)];
             res := text_response 500 stream_headers [lit "Server error"] |}
        end
      end
    end.

End Denotation.

(** ** The older copy of the server ([src/server.js])

    The repository also holds an earlier copy of the file with the chat
    route only.  Its [callGemini] and [/api/chat] handler read as the ones
    above, except for two things: the request body has an empty
    [generationConfig], and the dash of the greeting is stored as the
    three characters U+00E2 U+20AC U+201D. *)

Module ServerJs.

Definition gemini_body (promptText : jsstring) : jsval :=
  VObj [
    (lit "contents",
     VArr [obj2 "role" (VStr (lit "user"))
                "parts" (VArr [VObj [(lit "text", VStr promptText)]])]);
    (lit "generationConfig", VObj [])
  ].

Definition greeting_reply : jsstring :=
  lit "Hey " ++ [226%N; 8364%N; 8221%N]
  ++ lit " I'm FitBuddy. Ask me for workout plans, diet tips, or motivation.".

Definition localFallback (message : jsval) : exn + jsstring :=
  match lowered message with
  | inl e => inl e
  | inr msg =>
    if regex_test workout_re msg then inr workout_reply
    else if regex_test diet_re msg then inr diet_reply
    else if regex_test greeting_re msg then inr greeting_reply
    else inr catch_all_reply
  end.

Section Relay.

Variable GEMINI_API_KEY : option jsstring.
Variable fetch : fetch_request -> fetch_outcome.
Variable JSON_stringify : jsval -> jsstring.
Variable Number_toString : float -> jsstring.

Definition gemini_request (promptText : jsstring) (encoded_model : jsstring)
  : fetch_request :=
  {| url := lit "https://generativelanguage.googleapis.com/v1beta/models/"
            ++ encoded_model ++ lit ":generateContent";
     method := lit "POST";
     req_headers := [(lit "Content-Type", Some (lit "application/json"));
                     (lit "x-goog-api-key", GEMINI_API_KEY)];
     req_body := JSON_stringify (gemini_body promptText) |}.

Definition callGemini (promptText : jsstring) : M jsval unit :=
  encoded <- lift (encodeURIComponent model) ;;
  r <- await_fetch fetch (gemini_request promptText encoded) ;;
  match r with
  | FetchRejected e => throw e
  | FetchResponse status errorText parsed =>
    when (negb (status_ok status))
      (throw (Error (lit "Gemini API error " ++ dec status ++ lit ": " ++ errorText))) ;;
    data <- lift parsed ;;
    try_catch
      (let partText := first_part_text data in
       when (truthy partText) (return_ partText))
      (fun _ => ret tt) ;;
    return_ (VStr (JSON_stringify data))
  end.

(** [app.post('/api/chat', ...)] *)
Definition chat_handler (body : jsval) : M unit unit :=
  try_catch
    (let message := get_prop (lit "message") (body_or_empty body) in
     when (negb (truthy message))
       (res_status 400 ;; res_json (error_obj "No message provided") ;; return_ tt) ;;
     when (negb (is_set GEMINI_API_KEY))
       (reply <- lift (localFallback message) ;;
        res_json (obj2 "reply" (VStr reply) "source" (VStr (lit "local-fallback"))) ;;
        return_ tt) ;;
     prompt <- lift (chat_prompt Number_toString message) ;;
     replyText <-
       try_catch (call (callGemini prompt))
         (fun err =>
            console_error (lit "Gemini API call failed:") err ;;
            fallback <- lift (localFallback message) ;;
            res_json (VObj [(lit "reply", VStr fallback);
                            (lit "source", VStr (lit "fallback"));
                            (lit "error", VStr (String_of_exn err))]) ;;
            return_ tt) ;;
     res_json (obj2 "reply" replyText "source" (VStr (lit "gemini"))) ;;
     return_ tt)
    (fun err =>
       console_error [] err ;; res_status 500 ;; res_json (error_obj "Server error")).

End Relay.

End ServerJs.

(** ** Sample requests and upstream answers

    Concrete inputs on which the statements below are exercised. *)

Definition sample_key : option jsstring := Some (lit "test-key").

(** Stand-ins for the two serializers. *)
Definition sample_stringify (v : jsval) : jsstring := lit "{...}".
Definition sample_number_toString (x : float) : jsstring := lit "0".

(** An upstream that is out of quota, and one that answers [data]. *)
Definition upstream_429 (rq : fetch_request) : fetch_outcome :=
  FetchResponse 429 (lit "quota exceeded") (inl (Error (lit "not read"))).

Definition upstream_200 (data : jsval) (rq : fetch_request) : fetch_outcome :=
  FetchResponse 200 [] (inr data).



(** The usual answer of the provider, with [text] as its first part. *)
Definition answer_with (text : jsval) : jsval :=
  VObj [(lit "candidates",
         VArr [VObj [(lit "content",
                      VObj [(lit "parts", VArr [VObj [(lit "text", text)]]);
                            (lit "role", VStr (lit "model"))])]])].

Definition hello_body : jsval := VObj [(lit "message", VStr (lit "hello"))].
Definition code_body : jsval := VObj [(lit "code", VStr (lit "x=1"))].
Definition empty_message_body : jsval := VObj [(lit "message", VStr [])].
Definition empty_code_body : jsval := VObj [(lit "code", VStr [])].

Definition number_body : jsval := VObj [(lit "message", VNum 5%float)].

(** The prompts the two routes build for [code_body] and [hello_body]. *)
Definition sample_explain_prompt : jsstring :=
  match explain_prompt sample_number_toString (VStr (lit "x=1"))
          (VStr (lit "summary")) (VStr (lit "auto")) with
  | inr p => p
  | inl _ => []
  end.

Definition sample_chat_prompt : jsstring :=
  match chat_prompt sample_number_toString (VStr (lit "hello")) with
  | inr p => p
  | inl _ => []
  end.



Definition workout_body : jsval :=
  VObj [(lit "message", VStr (lit "a workout plan"))].

(** Three lines of code, the second one blank. *)
Definition sample_code : jsstring := lit "x = 1" ++ nl ++ nl ++ lit "return x".

(** A sentence of 250 code units, and a text that starts with it. *)
Definition long_sentence : jsstring := repeat 97%N 249 ++ lit ".".
Definition long_text : jsstring := long_sentence ++ lit " Short one. And another!".

(** ** Notions used in the statements and proofs *)

(** A chunk is within the limit, or it is one over-long sentence. *)
Definition bounded_or_single (ss : list jsstring) (c : jsstring) : Prop :=
  length c <= maxChunk
  \/ exists s, In s ss /\ maxChunk < length s /\ c = trim s.

(** A chunk is made of whole consecutive sentences. *)
Definition whole_sentences (ss : list jsstring) (c : jsstring) : Prop :=
  exists pre g post,
    ss = pre ++ g ++ post /\ g <> [] /\ c = trim (join (lit " ") g).

(** The same two facts about the buffer, before it is trimmed. *)
Definition buf_bounded (ss : list jsstring) (buf : jsstring) : Prop :=
  length buf <= maxChunk \/ exists s, In s ss /\ maxChunk < length s /\ buf = s.

Definition buf_whole (ss : list jsstring) (buf : jsstring) : Prop :=
  buf = [] \/ exists pre g, ss = pre ++ g /\ g <> [] /\ buf = join (lit " ") g.

Definition loop_inv (ss : list jsstring) (st : list jsstring * jsstring) : Prop :=
  Forall (fun c => bounded_or_single ss c /\ whole_sentences ss c) (fst st)
  /\ buf_bounded ss (snd st) /\ buf_whole ss (snd st).

(** A string that ends with a code unit [trim] keeps, and one that starts
    with such a code unit or is empty. *)
Definition solid_end (s : jsstring) : Prop :=
  exists t c, s = t ++ [c] /\ is_space c = false.

Definition clean_start (s : jsstring) : Prop :=
  match s with [] => True | c :: _ => is_space c = false end.

(** The position after the white space that starts at ([pre], [suf]). *)
Fixpoint skip_spaces (pre suf : list cu) : cursor :=
  match suf with
  | x :: r =>
    if is_space x then skip_spaces (x :: pre) r
    else {| before := pre; after := suf |}
  | [] => {| before := pre; after := [] |}
  end.

(** In the list [split] returns, every sentence but the last ends with
    its punctuation mark, and every sentence but the first starts with a
    code unit that is not white space (or is the empty last one). *)
Fixpoint tail_wf (l : list jsstring) : Prop :=
  match l with
  | [] => True
  | s :: l' => clean_start s /\ (l' <> [] -> solid_end s) /\ tail_wf l'
  end.

Definition sentences_wf (l : list jsstring) : Prop :=
  match l with
  | [] => True
  | s :: l' => (l' <> [] -> solid_end s) /\ tail_wf l'
  end.

(** The chunks pushed from a state of the loop on, the final flush included. *)
Fixpoint run (buf : jsstring) (ss : list jsstring) : list jsstring :=
  match ss with
  | [] => if nonempty buf then [trim buf] else []
  | s :: ss' =>
    if maxChunk <? length (buf ++ lit " " ++ s) then
      if nonempty buf then trim buf :: run s ss' else trim s :: run [] ss'
    else run (if nonempty buf then buf ++ lit " " ++ s else s) ss'
  end.

(** The code units of a string that are not white space, in order. *)
Definition ink (s : jsstring) : jsstring := filter (fun c => negb (is_space c)) s.

(** The patterns of [localFallback] are of the form [\b(w1|...|wn)\b]. *)
Definition keyword_re (ws : list jsstring) : regex :=
  Seq WordB (Seq (AltOf (map Str ws)) WordB).

Definition workout_words : list jsstring :=
  [lit "workout"; lit "exercise"; lit "plan"; lit "routine"].
Definition diet_words : list jsstring :=
  [lit "diet"; lit "calorie"; lit "protein"; lit "meal"].
Definition greeting_words : list jsstring := [lit "hi"; lit "hello"; lit "hey"].

(** A keyword is a non-empty string of [\w] code units. *)
Definition keyword (w : jsstring) : Prop :=
  w <> [] /\ Forall (fun c => is_word c = true) w.

(** [s] is empty or starts with a code unit that [\w] does not match. *)
Definition not_word_first (s : jsstring) : Prop :=
  match s with [] => True | c :: _ => is_word c = false end.

(** [w] occurs in [s] as a whole word: with no [\w] code unit right
    before it and none right after it. *)
Definition occurs_as_word (w s : jsstring) : Prop :=
  exists a b, s = a ++ w ++ b /\ not_word_first (rev a) /\ not_word_first b.

(** One of the words [ws] occurs in [s] as a whole word. *)
Definition has_word_of (ws : list jsstring) (s : jsstring) : Prop :=
  exists w, In w ws /\ occurs_as_word w s.

(** [s] without its prefix [w], when it has that prefix. *)
Fixpoint strip_prefix (w s : jsstring) : option jsstring :=
  match w with
  | [] => Some s
  | c :: w' =>
    match s with
    | x :: s' => if (c =? x)%N then strip_prefix w' s' else None
    | [] => None
    end
  end.

(** The same code unit, or the same ASCII letter in its two cases. *)
Definition same_letter (c c' : cu) : Prop :=
  c = c'
  \/ (in_range 65 90 c = true /\ c' = (c + 32)%N)
  \/ (in_range 65 90 c' = true /\ c = (c' + 32)%N).

(** Two strings that differ only in the case of ASCII letters. *)
Definition case_variant (m m' : jsstring) : Prop := Forall2 same_letter m m'.

(** What the line-by-line mode of [naiveExplain] says about the line of
    index [i] (from 0), [raw]. *)
Definition line_entry (i : N) (raw : jsstring) : jsstring :=
  lit "Line " ++ dec (i + 1) ++ lit ": " ++ trim raw ++ nl
  ++ lit "  " ++ [8594%N] ++ lit " " ++ explain_line raw (trim raw).

(** ** Properties of the string built-ins *)

Lemma lit_space : lit " " = [32%N].
Proof. reflexivity. Qed.

Lemma trim_start_length (s : jsstring) : length (trim_start s) <= length s.
Proof.
  induction s as [|c r IH]; simpl; [lia|].
  destruct (is_space c); simpl; lia.
Qed.

Lemma trim_length (s : jsstring) : length (trim s) <= length s.
Proof.
  unfold trim, trim_end.
  rewrite length_rev.
  etransitivity; [apply trim_start_length|].
  rewrite length_rev. apply trim_start_length.
Qed.

Lemma join_cons (sep x : jsstring) (l : list jsstring) :
  l <> [] -> join sep (x :: l) = x ++ sep ++ join sep l.
Proof. destruct l; [congruence | reflexivity]. Qed.

Lemma join_snoc (sep x : jsstring) (l : list jsstring) :
  l <> [] -> join sep (l ++ [x]) = join sep l ++ sep ++ x.
Proof.
  induction l as [|y l IH]; [congruence|]; intros _.
  destruct l as [|z l].
  - reflexivity.
  - change ((y :: z :: l) ++ [x]) with (y :: (z :: l) ++ [x]).
    rewrite (@join_cons sep y ((z :: l) ++ [x])) by (simpl; congruence).
    rewrite IH by congruence.
    rewrite (@join_cons sep y (z :: l)) by congruence.
    now rewrite <- !app_assoc.
Qed.

(** ** Properties of the Chunking Splitter *)

Lemma bounded_or_single_mono ss s c :
  bounded_or_single ss c -> bounded_or_single (ss ++ [s]) c.
Proof.
  intros [H | (x & Hin & Hlen & ->)]; [now left|].
  right. exists x. split; [apply in_or_app; now left | now split].
Qed.

Lemma whole_sentences_mono ss s c :
  whole_sentences ss c -> whole_sentences (ss ++ [s]) c.
Proof.
  intros (pre & g & post & -> & Hg & ->).
  exists pre, g, (post ++ [s]). now rewrite <- !app_assoc.
Qed.

Lemma buf_flush ss buf :
  buf <> [] -> buf_bounded ss buf -> buf_whole ss buf ->
  bounded_or_single ss (trim buf) /\ whole_sentences ss (trim buf).
Proof.
  intros Hne Hb Hw. split.
  - destruct Hb as [H | (x & Hin & Hlen & ->)].
    + left. pose proof (trim_length buf). lia.
    + right. now exists x.
  - destruct Hw as [-> | (pre & g & -> & Hg & ->)]; [congruence|].
    exists pre, g, []. now rewrite app_nil_r.
Qed.

Lemma chunk_step_inv ss st s :
  loop_inv ss st -> loop_inv (ss ++ [s]) (chunk_step st s).
Proof.
  destruct st as [chunks buf]. intros (Hc & Hb & Hw). cbn [fst snd] in *.
  assert (Hc' : Forall (fun c => bounded_or_single (ss ++ [s]) c
                                 /\ whole_sentences (ss ++ [s]) c) chunks).
  { eapply Forall_impl; [|exact Hc]. intros c [H1 H2].
    split; [now apply bounded_or_single_mono | now apply whole_sentences_mono]. }
  unfold chunk_step.
  rewrite !length_app, lit_space. cbn [length].
  destruct (maxChunk <? length buf + (1 + length s)) eqn:Hover.
  - apply Nat.ltb_lt in Hover.
    destruct buf as [|b buf']; cbn [nonempty].
    + (* the sentence alone is flushed *)
      repeat split; cbn [fst snd].
      * apply Forall_app. split; [exact Hc'|]. constructor; [|constructor]. split.
        -- destruct (Nat.le_gt_cases (length s) maxChunk) as [Hle | Hgt].
           ++ left. pose proof (trim_length s). lia.
           ++ right. exists s. split; [apply in_or_app; right; now left | now split].
        -- exists ss, [s], []. rewrite app_nil_r. repeat split; congruence.
      * left. simpl. unfold maxChunk. lia.
      * now left.
    + (* the buffer is flushed and restarts with the sentence *)
      repeat split; cbn [fst snd].
      * apply Forall_app. split; [exact Hc'|]. constructor; [|constructor].
        destruct (buf_flush (ss := ss) (buf := b :: buf')) as [H1 H2];
          [congruence | exact Hb | exact Hw |].
        split; [now apply bounded_or_single_mono | now apply whole_sentences_mono].
      * destruct (Nat.le_gt_cases (length s) maxChunk) as [Hle | Hgt]; [now left|].
        right. exists s. split; [apply in_or_app; right; now left | now split].
      * right. exists ss, [s]. repeat split; congruence.
  - apply Nat.ltb_ge in Hover.
    repeat split; cbn [fst snd]; [exact Hc' | |].
    + left. destruct buf; cbn [nonempty]; [|rewrite !length_app];
        cbn [length] in *; lia.
    + destruct buf as [|b buf']; cbn [nonempty].
      * right. exists ss, [s]. repeat split; congruence.
      * destruct Hw as [Hw | (pre & g & -> & Hg & Hj)]; [discriminate|].
        right. exists pre, (g ++ [s]). repeat split.
        -- now rewrite app_assoc.
        -- destruct g; discriminate.
        -- rewrite join_snoc by exact Hg. now rewrite Hj.
Qed.

Lemma fold_chunk_step_inv rest : forall ss st,
  loop_inv ss st -> loop_inv (ss ++ rest) (fold_left chunk_step rest st).
Proof.
  induction rest as [|s rest IH]; intros ss st H; simpl.
  - now rewrite app_nil_r.
  - replace (ss ++ s :: rest) with ((ss ++ [s]) ++ rest)
      by now rewrite <- app_assoc.
    apply IH. now apply chunk_step_inv.
Qed.

Lemma chunks_of_sentences_ok (ss : list jsstring) (c : jsstring) :
  In c (chunks_of_sentences ss) ->
  bounded_or_single ss c /\ whole_sentences ss c.
Proof.
  unfold chunks_of_sentences.
  assert (H0 : loop_inv [] ([], [])).
  { split; [apply Forall_nil | split; [left; simpl; unfold maxChunk; lia | now left]]. }
  apply (@fold_chunk_step_inv ss) in H0. cbn [app] in H0.
  destruct (fold_left chunk_step ss ([], [])) as [chunks buf].
  destruct H0 as (Hc & Hb & Hw). cbn [fst snd] in *.
  rewrite Forall_forall in Hc.
  destruct (nonempty buf) eqn:Hne; intros Hin.
  - apply in_app_or in Hin. destruct Hin as [Hin | [<- | []]].
    + now apply Hc.
    + apply buf_flush; [destruct buf; [discriminate | congruence] | exact Hb | exact Hw].
  - now apply Hc.
Qed.

(** C1. Every chunk the Chunking Splitter produces for a text is at most
    240 code units long, unless it is a single sentence of the text that
    is itself longer than 240; and every chunk is made of whole
    consecutive sentences (joined by single spaces and trimmed): no
    sentence is split. *)
Theorem chunk_length_bounded_unless_single_sentence
  (text chunk : jsstring) (Hin : In chunk (split_chunks text)) :
  (length chunk <= 240
   \/ exists s, In s (sentences_of text) /\ 240 < length s /\ chunk = trim s)
  /\ exists pre g post,
       sentences_of text = pre ++ g ++ post /\ g <> []
       /\ chunk = trim (join (lit " ") g).
Proof.
  apply chunks_of_sentences_ok in Hin. exact Hin.
Qed.


(** *** White space at the ends of sentences *)

Lemma solid_end_nonempty s : solid_end s -> s <> [].
Proof. intros (t & c & -> & _). destruct t; discriminate. Qed.

Lemma solid_end_app u s : solid_end s -> solid_end (u ++ s).
Proof.
  intros (t & c & -> & Hc). exists (u ++ t), c. now rewrite app_assoc.
Qed.

Lemma trim_start_app_solid a t :
  solid_end a -> trim_start (a ++ t) = trim_start a ++ t.
Proof.
  intros (u & c & -> & Hc).
  induction u as [|x u IH]; simpl.
  - now rewrite Hc.
  - destruct (is_space x); [exact IH | reflexivity].
Qed.

Lemma trim_start_solid a : solid_end a -> solid_end (trim_start a).
Proof.
  intros (u & c & -> & Hc).
  induction u as [|x u IH]; simpl.
  - rewrite Hc. now exists [], c.
  - destruct (is_space x); [exact IH|].
    exists (x :: u), c. now split.
Qed.

Lemma trim_start_clean b : clean_start b -> trim_start b = b.
Proof. destruct b as [|c b]; simpl; [reflexivity|]. now intros ->. Qed.

Lemma trim_end_solid a : solid_end a -> trim_end a = a.
Proof.
  intros (u & c & -> & Hc). unfold trim_end.
  rewrite rev_app_distr. simpl. rewrite Hc.
  simpl. now rewrite rev_involutive.
Qed.

Lemma trim_end_app t b c b' :
  b = c :: b' -> is_space c = false -> trim_end (t ++ b) = t ++ trim_end b.
Proof.
  intros -> Hc. unfold trim_end.
  rewrite rev_app_distr.
  rewrite trim_start_app_solid.
  - now rewrite rev_app_distr, rev_involutive.
  - exists (rev b'), c. now split.
Qed.

Lemma trim_end_space x c : is_space c = true -> trim_end (x ++ [c]) = trim_end x.
Proof.
  intros Hc. unfold trim_end. rewrite rev_app_distr. simpl. now rewrite Hc.
Qed.

Lemma trim_solid a : solid_end a -> trim a = trim_start a.
Proof. intros H. unfold trim. apply trim_end_solid. now apply trim_start_solid. Qed.

Lemma trim_glue a b c b' :
  solid_end a -> b = c :: b' -> is_space c = false ->
  trim (a ++ lit " " ++ b) = trim a ++ lit " " ++ trim b.
Proof.
  intros Ha Hb Hc.
  rewrite (trim_solid Ha).
  unfold trim at 1.
  rewrite (trim_start_app_solid _ Ha).
  rewrite app_assoc, (trim_end_app _ Hb Hc), <- app_assoc.
  unfold trim. rewrite (@trim_start_clean b); [reflexivity|].
  subst b. exact Hc.
Qed.

Lemma trim_trailing_space a : solid_end a -> trim (a ++ lit " ") = trim a.
Proof.
  intros Ha. unfold trim.
  rewrite (trim_start_app_solid _ Ha).
  now apply trim_end_space.
Qed.

(** *** The separator [/(?<=[.?!])\s+/] at a position *)

Lemma sentence_end_not_space c : sentence_end c = true -> is_space c = false.
Proof.
  unfold sentence_end. intros H.
  apply orb_true_iff in H. destruct H as [H | H];
    [apply orb_true_iff in H; destruct H as [H | H] |];
    apply N.eqb_eq in H; subst c; reflexivity.
Qed.

Lemma skip_spaces_after pre suf : after (skip_spaces pre suf) = trim_start suf.
Proof.
  revert pre. induction suf as [|x r IH]; intros pre; simpl; [reflexivity|].
  destruct (is_space x); [apply IH | reflexivity].
Qed.

Lemma skip_spaces_before x pre suf :
  is_space x = true ->
  exists y rest, before (skip_spaces (x :: pre) suf) = y :: rest /\ is_space y = true.
Proof.
  revert x pre. induction suf as [|z r IH]; intros x pre Hx; simpl.
  - now exists x, pre.
  - destruct (is_space z) eqn:Hz; [now apply IH|].
    now exists x, pre.
Qed.

Lemma star_loop_S step k n c :
  star_loop step k (S n) c
  = match step (fun c' =>
                  if length (after c') <? length (after c)
                  then star_loop step k n c' else None) c with
    | Some e => Some e
    | None => k c
    end.
Proof. reflexivity. Qed.

Lemma rmatch_space fuel k pre suf :
  rmatch sp fuel k {| before := pre; after := suf |}
  = match suf with
    | x :: r => if is_space x then k {| before := x :: pre; after := r |} else None
    | [] => None
    end.
Proof. destruct suf; reflexivity. Qed.

Lemma star_spaces fuel n : forall pre suf,
  length suf <= n ->
  star_loop (rmatch sp fuel) Some n {| before := pre; after := suf |}
  = Some (skip_spaces pre suf).
Proof.
  induction n as [|n IH]; intros pre suf Hlen.
  - destruct suf; [reflexivity | simpl in Hlen; lia].
  - rewrite star_loop_S, rmatch_space.
    destruct suf as [|x r]; [reflexivity|].
    cbn [skip_spaces after length] in *.
    destruct (is_space x); [|reflexivity].
    rewrite (proj2 (Nat.ltb_lt _ _)) by lia.
    rewrite IH by lia. reflexivity.
Qed.

Lemma rexec_sentence_sep pre suf :
  rexec sentence_sep {| before := pre; after := suf |}
  = match pre, suf with
    | p :: _, x :: r =>
      if sentence_end p && is_space x then Some (skip_spaces (x :: pre) r)
      else None
    | _, _ => None
    end.
Proof.
  unfold rexec, sentence_sep, Plus.
  change (rmatch (Seq (Behind sentence_end) (Seq sp (Star sp))) ?f ?k ?c)
    with (match before c with
          | x :: _ => if sentence_end x then rmatch sp f (star_loop (rmatch sp f) k f) c else None
          | [] => None
          end).
  cbn [before after].
  destruct pre as [|p pre]; [reflexivity|].
  destruct (sentence_end p); [|now destruct suf].
  rewrite rmatch_space.
  destruct suf as [|x r]; [reflexivity|].
  cbn [andb]. destruct (is_space x); [|reflexivity].
  apply star_spaces. simpl. lia.
Qed.

(** *** The shape of the sentence list *)

Lemma tail_wf_sentences_wf l : tail_wf l -> sentences_wf l.
Proof. destruct l; [trivial|]. simpl. tauto. Qed.

Lemma trim_start_is_clean s : clean_start (trim_start s).
Proof.
  induction s as [|c r IH]; simpl; [trivial|].
  destruct (is_space c) eqn:Hc; [exact IH | exact Hc].
Qed.

Lemma split_loop_wf fuel : forall cur pre suf,
  (cur = [] -> match pre with [] => True | p :: _ => sentence_end p = false end) ->
  (forall x cur', cur = x :: cur' -> exists pre', pre = x :: pre') ->
  exists h l,
    split_loop fuel sentence_sep cur pre suf = h :: l
    /\ (exists t, h = rev cur ++ t)
    /\ (cur = [] -> clean_start suf -> clean_start h)
    /\ (l <> [] -> solid_end h)
    /\ tail_wf l.
Proof.
  induction fuel as [|f IH]; intros cur pre suf Hstart Hcur.
  - exists (rev cur ++ suf), []. simpl. repeat split; try congruence.
    + now exists suf.
    + now intros ->.
  - destruct suf as [|x suf'].
    + exists (rev cur), []. simpl. repeat split; try congruence.
      * exists []. now rewrite app_nil_r.
      * now intros ->.
    + assert (Hpush : exists h l,
                split_loop f sentence_sep (x :: cur) (x :: pre) suf' = h :: l
                /\ (exists t, h = rev cur ++ t)
                /\ (cur = [] -> clean_start (x :: suf') -> clean_start h)
                /\ (l <> [] -> solid_end h)
                /\ tail_wf l).
      { destruct (IH (x :: cur) (x :: pre) suf') as (h & l & E & (t & Ht) & _ & Hl & Hw).
        - discriminate.
        - intros y c' [= <- <-]. now exists pre.
        - exists h, l. repeat split; trivial.
          + exists (x :: t). rewrite Ht. simpl. now rewrite <- app_assoc.
          + intros -> Hx. rewrite Ht. exact Hx. }
      cbn [split_loop]. rewrite rexec_sentence_sep.
      destruct pre as [|p pre']; [exact Hpush|].
      destruct (sentence_end p && is_space x) eqn:Hsep; [|exact Hpush].
      apply andb_true_iff in Hsep. destruct Hsep as [Hp Hx].
      destruct cur as [|c0 cur'].
      { specialize (Hstart eq_refl). simpl in Hstart. congruence. }
      destruct (Hcur c0 cur' eq_refl) as (pre'' & [= <- <-]).
      cbn [nonempty orb].
      destruct (@skip_spaces_before x (p :: pre') suf' Hx) as (y & rest & Hb & Hy).
      destruct (IH [] (before (skip_spaces (x :: p :: pre') suf'))
                   (after (skip_spaces (x :: p :: pre') suf')))
        as (h' & l' & E & _ & Hclean & Hl & Hw).
      * intros _. rewrite Hb.
        destruct (sentence_end y) eqn:Hy'; [|reflexivity].
        apply sentence_end_not_space in Hy'. congruence.
      * discriminate.
      * exists (rev (p :: cur')), (h' :: l'). rewrite E.
        repeat split; try discriminate.
        -- exists []. now rewrite app_nil_r.
        -- intros _. exists (rev cur'), p. split; [reflexivity|].
           now apply sentence_end_not_space.
        -- apply Hclean; [reflexivity|].
           rewrite skip_spaces_after. apply trim_start_is_clean.
        -- exact Hl.
        -- exact Hw.
Qed.

(** The fuel of [split] is enough: any amount above the length of what
    is left to read gives the same pieces. *)
Lemma split_loop_fuel f1 : forall f2 cur pre suf,
  length suf < f1 -> length suf < f2 ->
  split_loop f1 sentence_sep cur pre suf = split_loop f2 sentence_sep cur pre suf.
Proof.
  induction f1 as [|f1 IH]; intros f2 cur pre suf H1 H2; [lia|].
  destruct f2 as [|f2]; [lia|].
  destruct suf as [|x suf']; [reflexivity|].
  cbn [split_loop length] in *. rewrite rexec_sentence_sep.
  assert (Hpush : split_loop f1 sentence_sep (x :: cur) (x :: pre) suf'
                  = split_loop f2 sentence_sep (x :: cur) (x :: pre) suf')
    by (apply IH; lia).
  destruct pre as [|p pre']; [exact Hpush|].
  destruct (sentence_end p && is_space x); [|exact Hpush].
  rewrite skip_spaces_after.
  pose proof (trim_start_length suf') as Hlen.
  rewrite (proj2 (Nat.ltb_lt _ _)) by (simpl; lia).
  rewrite orb_true_r. f_equal.
  apply IH; lia.
Qed.

(** The sentences of a text have the shape [sentences_wf]. *)
Lemma sentences_of_wf text : sentences_wf (sentences_of text).
Proof.
  unfold sentences_of, regex_split.
  destruct text as [|c t].
  - rewrite rexec_sentence_sep. simpl. split; [intros H; now elim H | trivial].
  - destruct (@split_loop_wf (2 * length (c :: t) + 2) [] [] (c :: t))
      as (h & l & E & _ & _ & Hl & Hw); [trivial | discriminate |].
    rewrite E. split; assumption.
Qed.

(** *** The chunks of a well-formed sentence list *)

Lemma fold_run ss : forall chunks buf,
  (let '(c, b) := fold_left chunk_step ss (chunks, buf) in
   if nonempty b then c ++ [trim b] else c)
  = chunks ++ run buf ss.
Proof.
  induction ss as [|s ss IH]; intros chunks buf.
  - simpl. destruct (nonempty buf); [reflexivity | now rewrite app_nil_r].
  - cbn [fold_left run]. unfold chunk_step at 2.
    destruct (maxChunk <? length (buf ++ lit " " ++ s)).
    + destruct (nonempty buf); rewrite IH, <- app_assoc; reflexivity.
    + apply IH.
Qed.

Lemma chunks_of_sentences_run ss : chunks_of_sentences ss = run [] ss.
Proof. unfold chunks_of_sentences. apply (fold_run ss [] []). Qed.

Lemma run_nonempty ss : forall buf, buf <> [] -> run buf ss <> [].
Proof.
  induction ss as [|s ss IH]; intros buf Hne;
    (destruct buf as [|b buf]; [congruence|]); cbn [run nonempty].
  - discriminate.
  - destruct (maxChunk <? _); [discriminate|].
    apply IH. discriminate.
Qed.

Lemma run_start_nonempty s ss : s <> [] -> run [] (s :: ss) <> [].
Proof.
  intros Hne. cbn [run nonempty].
  destruct (maxChunk <? _); [discriminate|].
  now apply run_nonempty.
Qed.

Lemma join_starts sep c s ss : exists b', join sep ((c :: s) :: ss) = c :: b'.
Proof. destruct ss; simpl; eauto. Qed.

Lemma run_joined ss : forall buf,
  buf <> [] -> (ss <> [] -> solid_end buf) -> tail_wf ss ->
  join (lit " ") (run buf ss) = trim (join (lit " ") (buf :: ss)).
Proof.
  induction ss as [|s ss IH]; intros buf Hne Hsolid Hwf.
  - destruct buf; [congruence | reflexivity].
  - assert (Hb : solid_end buf) by (apply Hsolid; discriminate).
    destruct Hwf as (Hclean & Hs & Hwf).
    assert (Hnb : nonempty buf = true) by (destruct buf; [congruence | reflexivity]).
    rewrite (@join_cons (lit " ") buf (s :: ss)) by discriminate.
    cbn [run]. rewrite Hnb.
    destruct (maxChunk <? length (buf ++ lit " " ++ s)).
    + destruct s as [|c s0].
      * destruct ss as [|s2 ss];
          [| exfalso; apply (@solid_end_nonempty []); [apply Hs; discriminate | reflexivity]].
        cbn [run nonempty join]. rewrite app_nil_r.
        symmetry. now apply trim_trailing_space.
      * rewrite join_cons by (apply run_nonempty; discriminate).
        rewrite IH; [| discriminate | exact Hs | exact Hwf].
        destruct (join_starts (lit " ") c s0 ss) as (b' & Hj).
        symmetry. eapply trim_glue; [exact Hb | exact Hj | exact Hclean].
    + rewrite IH.
      * f_equal. destruct ss as [|s2 ss]; [reflexivity|].
        rewrite !join_cons by discriminate. now rewrite <- !app_assoc.
      * destruct buf; discriminate.
      * intros Hss. apply solid_end_app, solid_end_app. now apply Hs.
      * exact Hwf.
Qed.

Lemma run_joined_start ss :
  sentences_wf ss -> join (lit " ") (run [] ss) = trim (join (lit " ") ss).
Proof.
  induction ss as [|s ss IH]; intros Hwf; [reflexivity|].
  destruct Hwf as [Hs Hwf].
  specialize (IH (tail_wf_sentences_wf _ Hwf)).
  cbn [run nonempty].
  destruct (maxChunk <? length ([] ++ lit " " ++ s)).
  - destruct ss as [|s2 ss]; [reflexivity|].
    assert (Hsolid : solid_end s) by (apply Hs; discriminate).
    destruct Hwf as (Hclean & Hs2 & Hwf).
    rewrite (@join_cons (lit " ") s (s2 :: ss)) by discriminate.
    destruct s2 as [|c s20].
    + destruct ss as [|s3 ss];
        [| exfalso; apply (@solid_end_nonempty []); [apply Hs2; discriminate | reflexivity]].
      cbn [run nonempty join]. rewrite app_nil_r.
      replace (maxChunk <? length ([] ++ lit " " ++ [])) with false by reflexivity.
      cbn [run nonempty join].
      symmetry. now apply trim_trailing_space.
    + rewrite join_cons by (apply run_start_nonempty; discriminate).
      rewrite IH.
      destruct (join_starts (lit " ") c s20 ss) as (b' & Hj).
      symmetry. eapply trim_glue; [exact Hsolid | exact Hj | exact Hclean].
  - destruct s as [|c s0].
    + destruct ss as [|s2 ss];
        [reflexivity
        | exfalso; apply (@solid_end_nonempty []); [apply Hs; discriminate | reflexivity]].
    + apply run_joined; [discriminate | exact Hs | exact Hwf].
Qed.

(** C2, as the code has it. Joining the chunks with single spaces gives
    the sentences of the text, in order and each once, joined with single
    spaces -- with the white space at the two ends of the text removed,
    since every chunk is trimmed when it is pushed. *)
Theorem chunks_joined_are_trimmed_sentences (text : jsstring) :
  join (lit " ") (split_chunks text)
  = trim (join (lit " ") (sentences_of text)).
Proof.
  unfold split_chunks. rewrite chunks_of_sentences_run.
  apply run_joined_start, sentences_of_wf.
Qed.

(** C2, as stated, fails on a text that starts with white space: the
    text [" A. B."] has the sentences [" A."] and ["B."], and its one
    chunk is ["A. B."].  The joined chunks are not the joined sentences,
    and splitting them again does not give the sentences back. *)
Lemma chunks_joined_drop_leading_space :
  let text := lit " A. B." in
  sentences_of text = [lit " A."; lit "B."]
  /\ split_chunks text = [lit "A. B."]
  /\ join (lit " ") (split_chunks text) <> join (lit " ") (sentences_of text)
  /\ sentences_of (join (lit " ") (split_chunks text)) <> sentences_of text.
Proof.
  repeat split; try reflexivity; vm_compute; discriminate.
Qed.


(** *** More on the sentences and the chunks *)

Lemma trim_start_suffix s :
  exists ws, s = ws ++ trim_start s.
Proof.
  induction s as [|c r (ws & IH)]; [now exists []|]. simpl.
  destruct (is_space c); [|now exists []].
  exists (c :: ws). simpl. now rewrite <- IH.
Qed.

Lemma trim_end_prefix s : exists ws, s = trim_end s ++ ws.
Proof.
  unfold trim_end. destruct (trim_start_suffix (rev s)) as (ws & H).
  exists (rev ws). rewrite <- rev_app_distr, <- H. now rewrite rev_involutive.
Qed.

Lemma trim_clean_start s : clean_start (trim s).
Proof.
  unfold trim. pose proof (trim_start_is_clean s) as Hu.
  destruct (trim_end_prefix (trim_start s)) as (ws & H).
  destruct (trim_end (trim_start s)) as [|c r]; [exact I|].
  rewrite H in Hu. exact Hu.
Qed.

Lemma trim_solid_or_empty s : trim s = [] \/ solid_end (trim s).
Proof.
  unfold trim, trim_end.
  pose proof (trim_start_is_clean (rev (trim_start s))) as Hv.
  destruct (trim_start (rev (trim_start s))) as [|c r]; [now left|].
  right. exists (rev r), c. now split.
Qed.

Lemma ink_trim_start s : ink (trim_start s) = ink s.
Proof.
  induction s as [|c r IH]; [reflexivity|]. simpl.
  destruct (is_space c) eqn:Hc; simpl; rewrite ?Hc; simpl; [exact IH | reflexivity].
Qed.

Lemma ink_trim s : ink (trim s) = ink s.
Proof.
  unfold trim, trim_end, ink.
  rewrite filter_rev. fold (ink (trim_start (rev (trim_start s)))).
  rewrite ink_trim_start. unfold ink. rewrite filter_rev, rev_involutive.
  apply ink_trim_start.
Qed.

Lemma ink_join l : ink (join (lit " ") l) = ink (concat l).
Proof.
  induction l as [|x l IH]; [reflexivity|].
  destruct l as [|y l].
  - simpl. now rewrite app_nil_r.
  - rewrite join_cons by discriminate.
    unfold ink in *. rewrite !filter_app, IH.
    cbn [concat]. rewrite !filter_app. reflexivity.
Qed.

(** What [split] keeps of the text: the pieces put end to end are the
    text without some of its white space, and joined by single spaces
    they are no longer than the text. *)
Lemma split_loop_ink fuel : forall cur pre suf,
  ink (concat (split_loop fuel sentence_sep cur pre suf)) = ink (rev cur ++ suf).
Proof.
  induction fuel as [|f IH]; intros cur pre suf.
  - simpl. now rewrite app_nil_r.
  - destruct suf as [|x suf']; [simpl; now rewrite app_nil_r|].
    assert (Hpush : ink (concat (split_loop f sentence_sep (x :: cur) (x :: pre) suf'))
                    = ink (rev cur ++ x :: suf')).
    { rewrite IH. simpl. now rewrite <- app_assoc. }
    cbn [split_loop]. rewrite rexec_sentence_sep.
    destruct pre as [|p pre']; [exact Hpush|].
    destruct (sentence_end p && is_space x) eqn:Hsep; [|exact Hpush].
    apply andb_true_iff in Hsep. destruct Hsep as [_ Hx].
    destruct (nonempty cur || _); [|exact Hpush].
    cbn [concat]. unfold ink in *. rewrite !filter_app, IH.
    rewrite skip_spaces_after. cbn [rev app filter]. rewrite Hx. cbn [negb].
    f_equal. apply ink_trim_start.
Qed.

Lemma split_loop_nonempty fuel : forall cur pre suf,
  split_loop fuel sentence_sep cur pre suf <> [].
Proof.
  induction fuel as [|f IH]; intros cur pre suf; [discriminate|].
  destruct suf as [|x suf']; [discriminate|].
  cbn [split_loop].
  destruct (rexec sentence_sep _); [destruct (nonempty cur || _)|];
    first [discriminate | apply IH].
Qed.

Lemma split_loop_joined_length fuel : forall cur pre suf,
  length (join (lit " ") (split_loop fuel sentence_sep cur pre suf))
  <= length cur + length suf.
Proof.
  induction fuel as [|f IH]; intros cur pre suf.
  - simpl. rewrite length_app, length_rev. lia.
  - destruct suf as [|x suf']; [simpl; rewrite length_rev; lia|].
    assert (Hpush : length (join (lit " ")
                              (split_loop f sentence_sep (x :: cur) (x :: pre) suf'))
                    <= length cur + length (x :: suf')).
    { etransitivity; [apply IH|]. simpl. lia. }
    cbn [split_loop]. rewrite rexec_sentence_sep.
    destruct pre as [|p pre']; [exact Hpush|].
    destruct (sentence_end p && is_space x); [|exact Hpush].
    destruct (nonempty cur || _); [|exact Hpush].
    rewrite join_cons by apply split_loop_nonempty.
    rewrite !length_app, length_rev. change (length (lit " ")) with 1.
    specialize (IH [] (before (skip_spaces (x :: p :: pre') suf'))
                   (after (skip_spaces (x :: p :: pre') suf'))).
    rewrite skip_spaces_after in *.
    pose proof (trim_start_length suf'). cbn [length] in *. lia.
Qed.

Lemma sentences_joined_length text :
  length (join (lit " ") (sentences_of text)) <= length text.
Proof.
  unfold sentences_of, regex_split. destruct text as [|c t].
  - rewrite rexec_sentence_sep. simpl. lia.
  - etransitivity; [apply split_loop_joined_length | simpl; lia].
Qed.

(** The first sentence of a text that is not empty is not empty. *)
Lemma first_sentence_nonempty c t :
  exists h l, sentences_of (c :: t) = (c :: h) :: l.
Proof.
  unfold sentences_of, regex_split.
  replace (2 * length (c :: t) + 2) with (S (2 * length (c :: t) + 1)) by lia.
  cbn [split_loop]. rewrite rexec_sentence_sep.
  destruct (@split_loop_wf (2 * length (c :: t) + 1) [c] [c] t)
    as (h & l & E & (t' & Ht) & _);
    [discriminate | intros ? ? [= <- <-]; eauto |].
  rewrite E, Ht. simpl. eauto.
Qed.

Lemma run_length ss : forall buf,
  length (run buf ss) <= length ss + (if nonempty buf then 1 else 0).
Proof.
  induction ss as [|s ss IH]; intros buf; cbn [run].
  - destruct (nonempty buf); simpl; lia.
  - destruct (maxChunk <? _).
    + destruct (nonempty buf); cbn [length].
      * specialize (IH s). destruct (nonempty s); lia.
      * specialize (IH []). simpl in IH. lia.
    + destruct buf as [|b buf']; cbn [nonempty].
      * specialize (IH s). destruct (nonempty s); cbn [length]; lia.
      * specialize (IH ((b :: buf') ++ lit " " ++ s)).
        cbn [app nonempty length] in *. lia.
Qed.

Lemma join_length_head sep x l : length x <= length (join sep (x :: l)).
Proof.
  destruct l; [simpl; lia|]. rewrite join_cons by discriminate.
  rewrite length_app. lia.
Qed.

Lemma run_fits ss : forall buf,
  buf <> [] -> length (join (lit " ") (buf :: ss)) <= maxChunk ->
  run buf ss = [trim (join (lit " ") (buf :: ss))].
Proof.
  induction ss as [|s ss IH]; intros buf Hne Hlen.
  - destruct buf; [congruence | reflexivity].
  - assert (Hnb : nonempty buf = true) by (destruct buf; [congruence | reflexivity]).
    rewrite (@join_cons (lit " ") buf (s :: ss)) in * by discriminate.
    pose proof (join_length_head (lit " ") s ss) as Hs.
    cbn [run]. rewrite Hnb.
    rewrite (proj2 (Nat.ltb_ge _ _)) by (rewrite !length_app in *; lia).
    assert (E : join (lit " ") ((buf ++ lit " " ++ s) :: ss)
                = buf ++ lit " " ++ join (lit " ") (s :: ss)).
    { destruct ss as [|s2 ss]; [reflexivity|].
      rewrite !join_cons by discriminate. now rewrite <- !app_assoc. }
    rewrite IH; [now rewrite E | destruct buf; discriminate | now rewrite E].
Qed.

Lemma tail_wf_at pre s post :
  tail_wf (pre ++ s :: post) -> clean_start s /\ (post <> [] -> solid_end s).
Proof.
  induction pre as [|p pre IH]; simpl; [tauto|].
  intros (_ & _ & H). now apply IH.
Qed.

(** X4. The shape of the sentence list of a text: a sentence that is not
    the last one ends with a code unit that is not white space (its
    punctuation mark), and a sentence that is not the first one is empty
    or starts with a code unit that is not white space. *)
Theorem sentences_shape (text : jsstring) (pre : list jsstring) (s : jsstring)
  (post : list jsstring)
  (Hsplit : sentences_of text = pre ++ s :: post) :
  (post <> [] -> solid_end s) /\ (pre <> [] -> clean_start s).
Proof.
  pose proof (sentences_of_wf text) as H. rewrite Hsplit in H.
  destruct pre as [|p pre].
  - destruct H as [H _]. split; [exact H | congruence].
  - destruct H as [_ H]. apply tail_wf_at in H. tauto.
Qed.

(** X5. Every chunk is trimmed: it does not start with white space, and
    it is empty or ends with a code unit that is not white space. *)
Theorem chunks_are_trimmed (text chunk : jsstring)
  (Hin : In chunk (split_chunks text)) :
  clean_start chunk /\ (chunk = [] \/ solid_end chunk).
Proof.
  apply chunks_of_sentences_ok in Hin.
  destruct Hin as [_ (pre & g & post & _ & _ & ->)].
  split; [apply trim_clean_start | apply trim_solid_or_empty].
Qed.

(** X6. There are never more chunks than sentences, and there is no
    chunk at all exactly when the text is empty. *)
Theorem chunks_count (text : jsstring) :
  length (split_chunks text) <= length (sentences_of text)
  /\ (split_chunks text = [] <-> text = []).
Proof.
  unfold split_chunks. rewrite chunks_of_sentences_run. split.
  - etransitivity; [apply run_length|]. simpl. lia.
  - split; [|now intros ->].
    destruct text as [|c t]; [reflexivity|]. intros H. exfalso.
    destruct (first_sentence_nonempty c t) as (h & l & E).
    rewrite E in H. revert H. apply run_start_nonempty. discriminate.
Qed.

(** X7. A text of at most 240 code units that is not empty gives one
    chunk: its sentences joined by single spaces, trimmed. *)
Theorem text_within_limit_is_one_chunk (text : jsstring)
  (Hne : text <> []) (Hlen : length text <= 240) :
  split_chunks text = [trim (join (lit " ") (sentences_of text))].
Proof.
  destruct text as [|c t]; [congruence|].
  pose proof (sentences_joined_length (c :: t)) as HJ.
  destruct (first_sentence_nonempty c t) as (h & l & E).
  unfold split_chunks. rewrite chunks_of_sentences_run, E in *.
  cbn [run nonempty].
  destruct (maxChunk <? length ([] ++ lit " " ++ c :: h)) eqn:Hover.
  - apply Nat.ltb_lt in Hover. rewrite app_nil_l, length_app in Hover.
    change (length (lit " ")) with 1 in Hover.
    destruct l as [|s2 l]; [reflexivity|]. exfalso.
    rewrite join_cons, !length_app in HJ by discriminate.
    change (length (lit " ")) with 1 in HJ. unfold maxChunk in Hover. lia.
  - apply run_fits; [discriminate | unfold maxChunk; lia].
Qed.

(** X8. Chunking loses nothing but white space: the code units of the
    chunks that are not white space are those of the text, in order. *)
Theorem chunks_keep_the_ink (text : jsstring) :
  ink (concat (split_chunks text)) = ink text.
Proof.
  rewrite <- ink_join. unfold split_chunks.
  rewrite chunks_of_sentences_run, run_joined_start by apply sentences_of_wf.
  rewrite ink_trim, ink_join.
  unfold sentences_of, regex_split. destruct text as [|c t].
  - now rewrite rexec_sentence_sep.
  - now rewrite split_loop_ink.
Qed.

(** ** Properties of the keyword patterns *)

Lemma strip_prefix_spec w : forall s r, strip_prefix w s = Some r <-> s = w ++ r.
Proof.
  induction w as [|c w IH]; intros s r; simpl.
  - split; [now intros [= ->] | now intros ->].
  - destruct s as [|x s]; [split; discriminate|].
    destruct (N.eqb_spec c x) as [-> | Hne].
    + rewrite IH. split; [now intros -> | now intros [= ->]].
    + split; [discriminate | intros [= ? _]; congruence].
Qed.

Lemma rmatch_Str w fuel k : forall pre suf,
  rmatch (Str w) fuel k {| before := pre; after := suf |}
  = match strip_prefix w suf with
    | Some r => k {| before := rev w ++ pre; after := r |}
    | None => None
    end.
Proof.
  induction w as [|c w IH]; intros pre suf; [reflexivity|].
  assert (Hrev : forall q : jsstring, rev (c :: w) ++ q = rev w ++ c :: q)
    by (intros q; simpl; now rewrite <- app_assoc).
  destruct w as [|c' w'].
  - destruct suf as [|x s]; [reflexivity|].
    cbn [Str rmatch advance after before strip_prefix].
    destruct (N.eqb_spec c x) as [-> | Hne]; reflexivity.
  - change (Str (c :: c' :: w')) with (Seq (Chr c) (Str (c' :: w'))).
    destruct suf as [|x s]; [reflexivity|].
    cbn [rmatch advance after before strip_prefix].
    destruct (N.eqb_spec c x) as [-> | Hne]; [|reflexivity].
    rewrite IH, Hrev. reflexivity.
Qed.

Lemma rmatch_AltOf rs fuel k c :
  rmatch (AltOf rs) fuel k c <> None
  <-> exists r, In r rs /\ rmatch r fuel k c <> None.
Proof.
  induction rs as [|r rs IH].
  - simpl. split; [|now intros (? & [] & _)].
    destruct (advance c) as [[y c']|]; congruence.
  - destruct rs as [|r' rs'].
    + simpl. split; [eauto | now intros (? & [<- | []] & H)].
    + change (AltOf (r :: r' :: rs')) with (Alt r (AltOf (r' :: rs'))).
      cbn [rmatch].
      destruct (rmatch r fuel k c) eqn:Hr.
      * split; [intros _; exists r; split; [now left | congruence] | congruence].
      * rewrite IH. split.
        -- intros (x & Hin & Hx). exists x. split; [now right | exact Hx].
        -- intros (x & [<- | Hin] & Hx); [congruence | eauto].
Qed.

Lemma keyword_ends w pre :
  keyword w ->
  (exists x t, w = x :: t /\ is_word x = true)
  /\ (exists y t, rev w ++ pre = y :: t /\ is_word y = true).
Proof.
  intros [Hne Hall]. split.
  - destruct w as [|x t]; [congruence|]. inversion Hall. eauto.
  - apply Forall_rev in Hall. destruct (rev w) as [|y t] eqn:E.
    + apply (f_equal (@rev N)) in E. rewrite rev_involutive in E. now subst.
    + inversion Hall. simpl. eauto.
Qed.

(** A keyword pattern matches at a position exactly when one of its
    words stands there as a whole word. *)
Lemma rexec_keyword ws pre suf :
  Forall keyword ws ->
  (rexec (keyword_re ws) {| before := pre; after := suf |} <> None
   <-> exists w r, In w ws /\ suf = w ++ r
                   /\ not_word_first pre /\ not_word_first r).
Proof.
  intros Hws. unfold rexec, keyword_re.
  set (fuel := S (length (after {| before := pre; after := suf |}))).
  change (rmatch (Seq WordB (Seq (AltOf (map Str ws)) WordB)) fuel Some ?c)
    with (if xorb (word_before c) (word_after c)
          then rmatch (AltOf (map Str ws)) fuel (rmatch WordB fuel Some) c
          else None).
  rewrite Forall_forall in Hws.
  split.
  - destruct (xorb _ _) eqn:Hb; [|congruence].
    rewrite rmatch_AltOf. intros (r & Hin & Hr).
    apply in_map_iff in Hin. destruct Hin as (w & <- & Hin).
    rewrite rmatch_Str in Hr.
    destruct (strip_prefix w suf) as [rest|] eqn:Hs; [|congruence].
    apply strip_prefix_spec in Hs. subst suf.
    destruct (keyword_ends pre (Hws w Hin)) as ((x & t & -> & Hx) & (y & t' & Hy & Hy')).
    exists (x :: t), rest. repeat split; trivial.
    + unfold word_before, word_after in Hb. cbn [before after app] in Hb.
      rewrite Hx in Hb. destruct pre as [|p pre']; [exact I|].
      simpl. now destruct (is_word p).
    + cbn [rmatch] in Hr. unfold word_before, word_after in Hr.
      cbn [before after] in Hr. rewrite Hy, Hy' in Hr.
      destruct rest as [|z rest']; [exact I|].
      simpl. now destruct (is_word z).
  - intros (w & r & Hin & -> & Hpre & Hr).
    destruct (keyword_ends pre (Hws w Hin)) as ((x & t & -> & Hx) & (y & t' & Hy & Hy')).
    assert (Hb : xorb (word_before {| before := pre; after := (x :: t) ++ r |})
                      (word_after {| before := pre; after := (x :: t) ++ r |}) = true).
    { unfold word_before, word_after. cbn [before after app]. rewrite Hx.
      destruct pre as [|p pre']; [reflexivity|]. simpl in Hpre. now rewrite Hpre. }
    rewrite Hb. apply rmatch_AltOf. exists (Str (x :: t)). split.
    + apply in_map_iff. eauto.
    + rewrite rmatch_Str.
      rewrite (proj2 (strip_prefix_spec (x :: t) ((x :: t) ++ r) r) eq_refl).
      cbn [rmatch]. unfold word_before, word_after. cbn [before after].
      rewrite Hy, Hy'. destruct r as [|z r']; [discriminate|].
      simpl in Hr. rewrite Hr. discriminate.
Qed.

(** The search tries every position from the left. *)
Lemma rsearch_spec r suf : forall pre,
  rsearch r pre suf <> None
  <-> exists a b, suf = a ++ b
                  /\ rexec r {| before := rev a ++ pre; after := b |} <> None.
Proof.
  induction suf as [|x suf IH]; intros pre; cbn [rsearch].
  - destruct (rexec r {| before := pre; after := [] |}) eqn:E.
    + split; [intros _; exists [], []; split; [reflexivity | simpl; congruence]
             | congruence].
    + split; [congruence|]. intros (a & b & Hab & H).
      symmetry in Hab. apply app_eq_nil in Hab. destruct Hab as [-> ->].
      simpl in H. congruence.
  - destruct (rexec r {| before := pre; after := x :: suf |}) eqn:E.
    + split; [|congruence]. intros _. exists [], (x :: suf).
      split; [reflexivity | simpl; congruence].
    + rewrite IH. split.
      * intros (a & b & -> & H). exists (x :: a), b. split; [reflexivity|].
        simpl. now rewrite <- app_assoc.
      * intros (a & b & Hab & H). destruct a as [|y a].
        -- simpl in *. subst b. congruence.
        -- injection Hab as <- ->. exists a, b. split; [reflexivity|].
           simpl in H. now rewrite <- app_assoc in H.
Qed.

Lemma keyword_test ws s :
  Forall keyword ws ->
  (regex_test (keyword_re ws) s = true <-> exists w, In w ws /\ occurs_as_word w s).
Proof.
  intros Hws. unfold regex_test.
  assert (H : rsearch (keyword_re ws) [] s <> None
              <-> exists w, In w ws /\ occurs_as_word w s).
  { rewrite rsearch_spec. split.
    - intros (a & b & -> & H). rewrite app_nil_r in H.
      apply (rexec_keyword _ _ Hws) in H.
      destruct H as (w & r & Hin & -> & Ha & Hr).
      exists w. split; [exact Hin|]. now exists a, r.
    - intros (w & Hin & a & b & -> & Ha & Hb).
      exists a, (w ++ b). split; [reflexivity|]. rewrite app_nil_r.
      apply (rexec_keyword _ _ Hws). now exists w, b. }
  destruct (rsearch (keyword_re ws) [] s);
    [split; [intros _; apply H; congruence | reflexivity]
    | split; [discriminate | intros H'; apply H in H'; congruence]].
Qed.

Lemma keyword_lists :
  Forall keyword workout_words /\ Forall keyword diet_words
  /\ Forall keyword greeting_words.
Proof.
  repeat split; repeat constructor; try discriminate.
Qed.

Lemma replies_differ :
  workout_reply <> diet_reply /\ workout_reply <> greeting_reply
  /\ workout_reply <> catch_all_reply /\ diet_reply <> greeting_reply
  /\ diet_reply <> catch_all_reply /\ greeting_reply <> catch_all_reply.
Proof. repeat split; intros H; apply (f_equal (hd 0%N)) in H; discriminate. Qed.

(** The reply to a lower-cased message, by the words it has. *)
Lemma canned_reply_by_words (l : jsstring) :
  (canned_reply l = workout_reply <-> has_word_of workout_words l)
  /\ (canned_reply l = diet_reply
      <-> ~ has_word_of workout_words l /\ has_word_of diet_words l)
  /\ (canned_reply l = greeting_reply
      <-> ~ has_word_of workout_words l /\ ~ has_word_of diet_words l
          /\ has_word_of greeting_words l)
  /\ (canned_reply l = catch_all_reply
      <-> ~ has_word_of workout_words l /\ ~ has_word_of diet_words l
          /\ ~ has_word_of greeting_words l).
Proof.
  unfold canned_reply.
  change workout_re with (keyword_re workout_words).
  change diet_re with (keyword_re diet_words).
  change greeting_re with (keyword_re greeting_words).
  destruct keyword_lists as (Kw & Kd & Kg).
  pose proof (keyword_test l Kw) as Hw.
  pose proof (keyword_test l Kd) as Hd.
  pose proof (keyword_test l Kg) as Hg.
  fold (has_word_of workout_words l) in Hw.
  fold (has_word_of diet_words l) in Hd.
  fold (has_word_of greeting_words l) in Hg.
  destruct replies_differ as (D1 & D2 & D3 & D4 & D5 & D6).
  destruct (regex_test (keyword_re workout_words) l);
    destruct (regex_test (keyword_re diet_words) l);
    destruct (regex_test (keyword_re greeting_words) l);
    intuition congruence.
Qed.

(** Lower-casing forgets the case of ASCII letters. *)
Lemma lower_cu_same_letter (c c' : cu) :
  same_letter c c' -> lower_cu c = lower_cu c'.
Proof.
  assert (H : forall x, in_range 65 90 x = true ->
                        lower_cu x = lower_cu (x + 32)%N).
  { intros x Hx. unfold lower_cu. rewrite Hx.
    unfold in_range in *. apply andb_true_iff in Hx. destruct Hx as [H1 H2].
    apply N.leb_le in H1. apply N.leb_le in H2.
    replace ((65 <=? x + 32) && (x + 32 <=? 90))%N with false
      by (symmetry; apply andb_false_iff; right; apply N.leb_gt; lia).
    replace (x + 32 =? 8490)%N with false by (symmetry; apply N.eqb_neq; lia).
    replace (x + 32 =? 304)%N with false by (symmetry; apply N.eqb_neq; lia).
    reflexivity. }
  intros [-> | [[Hc ->] | [Hc ->]]]; [reflexivity | now apply H |].
  symmetry. now apply H.
Qed.

Lemma toLowerCase_case_variant (m m' : jsstring) :
  case_variant m m' -> toLowerCase m = toLowerCase m'.
Proof.
  unfold toLowerCase.
  induction 1 as [|c c' m m' Hc _ IH]; [reflexivity|].
  cbn [flat_map]. now rewrite (lower_cu_same_letter Hc), IH.
Qed.

(** ** [parseInt] on what [String] prints *)

Lemma dec_digits_acc fuel : forall n acc,
  dec_digits fuel n acc = dec_digits fuel n [] ++ acc.
Proof.
  induction fuel as [|f IH]; intros n acc; cbn [dec_digits]; [reflexivity|].
  cbv zeta. destruct (n <? 10)%N; [reflexivity|].
  rewrite IH, (IH _ [_]), <- app_assoc. reflexivity.
Qed.

Lemma digits_value_digit a d r : (d < 10)%N ->
  digits_value a ((48 + d)%N :: r)
  = (fst (digits_value (a * 10 + d) r), S (snd (digits_value (a * 10 + d) r))).
Proof.
  intros Hd. cbn [digits_value].
  replace (is_digit (48 + d)) with true
    by (unfold is_digit, in_range; symmetry; apply andb_true_iff; split;
        apply N.leb_le; lia).
  replace (48 + d - 48)%N with d by lia.
  now destruct (digits_value (a * 10 + d) r).
Qed.

Lemma dec_digits_S f n acc :
  dec_digits (S f) n acc
  = if (n <? 10)%N then (48 + n mod 10)%N :: acc
    else dec_digits f (n / 10)%N ((48 + n mod 10)%N :: acc).
Proof. reflexivity. Qed.

Lemma digits_value_dec_digits f : forall n, (n < 2 ^ N.of_nat (S f))%N ->
  exists k, forall a r, exists c,
    digits_value a (dec_digits (S f) n [] ++ r)
    = (fst (digits_value (a * 10 ^ k + n) r), S c).
Proof.
  induction f as [|f IH]; intros n Hn.
  - exists 1%N. intros a r.
    change (2 ^ N.of_nat 1)%N with 2%N in Hn.
    rewrite dec_digits_S.
    replace (n <? 10)%N with true by (symmetry; apply N.ltb_lt; lia).
    rewrite N.mod_small by lia. cbn [app].
    rewrite digits_value_digit by lia. rewrite N.pow_1_r. eauto.
  - rewrite dec_digits_S.
    destruct (n <? 10)%N eqn:H10.
    + apply N.ltb_lt in H10. exists 1%N. intros a r.
      rewrite N.mod_small by lia. cbn [app].
      rewrite digits_value_digit by lia. rewrite N.pow_1_r. eauto.
    + apply N.ltb_ge in H10.
      assert (Hdiv : (n / 10 < 2 ^ N.of_nat (S f))%N).
      { rewrite Nat2N.inj_succ, N.pow_succ_r' in Hn.
        apply N.Div0.div_lt_upper_bound. lia. }
      destruct (IH _ Hdiv) as [k Hk].
      exists (N.succ k). intros a r.
      rewrite dec_digits_acc, <- app_assoc. cbn [app].
      destruct (Hk a ((48 + n mod 10)%N :: r)) as [c ->].
      assert (Hmod : (n mod 10 < 10)%N) by (apply N.mod_lt; lia).
      rewrite digits_value_digit by assumption. cbn [fst].
      exists c. f_equal. f_equal. f_equal.
      rewrite N.pow_succ_r'.
      pose proof (N.div_mod n 10 ltac:(lia)). lia.
Qed.

Lemma digits_value_dec n r :
  (forall c r', r = c :: r' -> is_digit c = false) ->
  exists c, digits_value 0 (dec n ++ r) = (n, S c).
Proof.
  intros Hr. unfold dec.
  assert (Hn : (n < 2 ^ N.of_nat (S (N.to_nat (N.log2 n))))%N).
  { rewrite Nat2N.inj_succ, N2Nat.id.
    destruct n as [|p]; [reflexivity|].
    apply N.log2_spec. lia. }
  destruct (digits_value_dec_digits Hn) as [k Hk].
  destruct (Hk 0%N r) as [c ->]. exists c. f_equal.
  cbn [N.mul N.add].
  destruct r as [|x r']; [reflexivity|].
  cbn [digits_value]. now rewrite (Hr x r' eq_refl).
Qed.

Lemma digit_is_no_sign c (r : jsstring) : is_digit c = true ->
  match c :: r with
  | 45%N :: r' => (true, r')
  | 43%N :: r' => (false, r')
  | _ => (false, c :: r)
  end = (false, c :: r).
Proof.
  unfold is_digit, in_range. intros H. apply andb_true_iff in H.
  destruct H as [H1 H2]. apply N.leb_le in H1. apply N.leb_le in H2.
  assert (Hc : In c [48; 49; 50; 51; 52; 53; 54; 55; 56; 57]%N).
  { cbn [In]. lia. }
  cbn [In] in Hc.
  repeat (destruct Hc as [<- | Hc]; [reflexivity|]). destruct Hc.
Qed.

Lemma other_is_no_sign c (r : jsstring) : c <> 45%N -> c <> 43%N ->
  match c :: r with
  | 45%N :: r' => (true, r')
  | 43%N :: r' => (false, r')
  | _ => (false, c :: r)
  end = (false, c :: r).
Proof.
  intros H45 H43.
  destruct c as [|p]; [reflexivity|].
  do 6 (try (destruct p as [p | p |])); try reflexivity; congruence.
Qed.

Lemma trim_start_spaces ws s :
  forallb is_space ws = true -> trim_start (ws ++ s) = trim_start s.
Proof.
  induction ws as [|c ws IH]; [reflexivity|].
  cbn [forallb app trim_start]. intros H. apply andb_true_iff in H.
  destruct H as [-> H]. auto.
Qed.

Lemma digit_not_space c : is_digit c = true -> is_space c = false.
Proof.
  unfold is_digit, is_space, in_range. intros H. apply andb_true_iff in H.
  destruct H as [H1 H2]. apply N.leb_le in H1. apply N.leb_le in H2.
  repeat (apply orb_false_iff; split);
    first [ apply N.eqb_neq; lia
          | apply andb_false_iff; left; apply N.leb_gt; lia
          | apply andb_false_iff; right; apply N.leb_gt; lia ].
Qed.

Lemma parseInt10_dec ws n rest :
  forallb is_space ws = true ->
  (forall c r, rest = c :: r -> is_digit c = false) ->
  parseInt10 (ws ++ dec n ++ rest) = float_of_N n.
Proof.
  intros Hws Hrest. unfold parseInt10. rewrite trim_start_spaces by assumption.
  destruct (digits_value_dec n Hrest) as [c Hc].
  destruct (dec n ++ rest) as [|x t] eqn:E; [discriminate|].
  assert (Hx : is_digit x = true).
  { cbn [digits_value] in Hc. destruct (is_digit x); [reflexivity | discriminate]. }
  cbn [trim_start]. rewrite (@digit_not_space x Hx).
  rewrite (@digit_is_no_sign x t Hx). now rewrite Hc.
Qed.

(** X16. [GEMINI_MAX_OUTPUT_TOKENS] holding a decimal number, as [String]
    prints it, after any white space and before anything that is not a
    digit, sets [maxOutputTokens] of the request to that number; unset or
    empty it leaves 512; and a value that starts with something else
    than white space, a sign or a digit makes it [NaN]. *)
Theorem max_output_tokens_setting
  (ws : jsstring) (n : N) (rest promptText : jsstring)
  (Hws : forallb is_space ws = true)
  (Hrest : forall c r, rest = c :: r -> is_digit c = false) :
  let maxOutputTokens v :=
    get_prop (lit "maxOutputTokens")
      (get_prop (lit "generationConfig") (gemini_body v promptText)) in
  maxOutputTokens (Some (ws ++ dec n ++ rest)) = VNum (float_of_N n)
  /\ maxOutputTokens None = VNum 512%float
  /\ maxOutputTokens (Some []) = VNum 512%float
  /\ (forall c v, is_space c = false -> is_digit c = false ->
        c <> 45%N -> c <> 43%N ->
        maxOutputTokens (Some (c :: v)) = VNum PrimFloat.nan).
Proof.
  intros maxOutputTokens. subst maxOutputTokens. cbv beta.
  repeat split.
  - change (VNum (defaultMax (Some (ws ++ dec n ++ rest))) = VNum (float_of_N n)).
    f_equal. unfold defaultMax.
    rewrite <- (@parseInt10_dec ws n rest Hws Hrest).
    destruct (ws ++ dec n ++ rest) eqn:E; [|reflexivity].
    exfalso. destruct (digits_value_dec n Hrest) as [c Hc].
    apply app_eq_nil in E. destruct E as [_ E]. now rewrite E in Hc.
  - intros c v Hsp Hdg H45 H43.
    change (VNum (parseInt10 (c :: v)) = VNum PrimFloat.nan). f_equal.
    unfold parseInt10. cbn [trim_start]. rewrite Hsp.
    rewrite (@other_is_no_sign c v H45 H43). cbn [digits_value]. now rewrite Hdg.
Qed.

(** ** The line-by-line mode of [naiveExplain] *)

Lemma explain_lines_spec lines : forall i,
  length (explain_lines i lines)
  = length (filter (fun l => nonempty (trim l)) lines)
  /\ forall e,
       In e (explain_lines i lines)
       <-> exists k raw,
             nth_error lines k = Some raw /\ trim raw <> []
             /\ e = line_entry (i + N.of_nat k) raw.
Proof.
  induction lines as [|raw rest IH]; intros i.
  - split; [reflexivity|]. intros e. split; [intros []|].
    intros (k & raw & H & _). now destruct k.
  - destruct (IH (i + 1)%N) as [IHlen IHin].
    assert (Hshift : forall e,
               (exists k raw', nth_error rest k = Some raw' /\ trim raw' <> []
                               /\ e = line_entry (i + 1 + N.of_nat k) raw')
               <-> (exists k raw', nth_error (raw :: rest) (S k) = Some raw'
                                   /\ trim raw' <> []
                                   /\ e = line_entry (i + N.of_nat (S k)) raw')).
    { intros e.
      split; intros (k & raw' & H1 & H2 & ->); exists k, raw';
        (repeat split; [exact H1 | exact H2 | f_equal; lia]). }
    cbn [explain_lines filter]. cbv zeta.
    destruct (trim raw) as [|c t] eqn:Ht; cbn [nonempty negb].
    + split; [exact IHlen|]. intros e. rewrite IHin, Hshift.
      split.
      * intros (k & raw' & H). now exists (S k), raw'.
      * intros ([|k] & raw' & H1 & H2 & H3).
        -- injection H1 as <-. congruence.
        -- now exists k, raw'.
    + split; [cbn [length]; now rewrite IHlen|].
      intros e. cbn [In]. rewrite IHin, Hshift. split.
      * intros [<- | (k & raw' & H)].
        -- exists 0, raw. repeat split; [congruence|].
           unfold line_entry. rewrite Ht. now replace (i + N.of_nat 0)%N with i by lia.
        -- now exists (S k), raw'.
      * intros ([|k] & raw' & H1 & H2 & H3).
        -- left. injection H1 as <-. subst e. unfold line_entry. rewrite Ht.
           now replace (i + N.of_nat 0)%N with i by lia.
        -- right. now exists k, raw'.
Qed.

(** X18. [naiveExplain] in its line-by-line mode (any mode but
    [summary], [doc] and [refactor]) returns one entry per non-blank line
    of the code, joined by blank lines: the entry of a line carries the
    number of the line among all lines, blank ones counted, and its
    trimmed text. *)
Theorem naiveExplain_line_by_line (code : jsstring) (mode : jsval)
  (Hmode : is_str "summary" mode = false /\ is_str "doc" mode = false
           /\ is_str "refactor" mode = false) :
  let lines := map replace_tabs (regex_split newline_re code) in
  exists entries,
    naiveExplain (VStr code) mode = inr (join (nl ++ nl) entries)
    /\ length entries = length (filter (fun l => nonempty (trim l)) lines)
    /\ forall e,
         In e entries
         <-> exists k raw,
               nth_error lines k = Some raw /\ trim raw <> []
               /\ e = line_entry (N.of_nat k) raw.
Proof.
  intros lines. destruct Hmode as (H1 & H2 & H3).
  exists (explain_lines 0 lines). unfold naiveExplain. rewrite H1, H2, H3.
  split; [reflexivity|]. apply (explain_lines_spec lines 0).
Qed.

(** ** Properties of the relay *)

Ltac run_monad :=
  cbv beta iota zeta delta
    [try_catch bind call when ret return_ throw lift update_res res_status
     res_setHeader res_write res_end res_end_with res_json console_error
     for_each fst snd negb upstream_calls console res statusCode headers out
     ended fresh_world fresh_response log_call json_response].

Section RelayProperties.

Variable GEMINI_API_KEY : option jsstring.
Variable GEMINI_MAX_OUTPUT_TOKENS : option jsstring.
Variable fetch : fetch_request -> fetch_outcome.
Variable JSON_stringify : jsval -> jsstring.
Variable Number_toString : float -> jsstring.

Local Abbreviation client :=
  (callGemini GEMINI_API_KEY GEMINI_MAX_OUTPUT_TOKENS fetch JSON_stringify).
Local Abbreviation request_for :=
  (fun promptText =>
     gemini_request GEMINI_API_KEY GEMINI_MAX_OUTPUT_TOKENS JSON_stringify
       promptText model).
Local Abbreviation chat :=
  (chat_handler GEMINI_API_KEY GEMINI_MAX_OUTPUT_TOKENS fetch JSON_stringify
     Number_toString).
Local Abbreviation explain :=
  (explain_handler GEMINI_API_KEY GEMINI_MAX_OUTPUT_TOKENS fetch JSON_stringify
     Number_toString).
Local Abbreviation explain_stream :=
  (explain_stream_handler GEMINI_API_KEY GEMINI_MAX_OUTPUT_TOKENS fetch
     JSON_stringify Number_toString).

Local Abbreviation field k body := (get_prop (lit k) (body_or_empty body)).

(** The prompt [/api/explain] builds from a request body. *)
Local Abbreviation explain_prompt_of body :=
  (explain_prompt Number_toString (field "code" body)
     (default_to "summary" (field "mode" body))
     (default_to "auto" (field "language" body))).

Lemma encoded_model : encodeURIComponent model = inr model.
Proof. reflexivity. Qed.

(** [callGemini] makes exactly one call, and completes as the answer says. *)
Lemma callGemini_eq (promptText : jsstring) (w : world) :
  client promptText w
  = (gemini_outcome JSON_stringify (fetch (request_for promptText)),
     log_call w (request_for promptText)).
Proof.
  unfold callGemini. rewrite encoded_model.
  unfold await_fetch, gemini_outcome. run_monad.
  destruct (fetch _) as [e | status text parsed]; [reflexivity|].
  destruct (status_ok status); [|reflexivity].
  destruct parsed as [e | data]; [reflexivity|].
  destruct (truthy (first_part_text data)); reflexivity.
Qed.

(** A request whose required field is falsy is refused at once. *)
Lemma chat_refuses_falsy (body : jsval) :
  truthy (get_prop (lit "message") (body_or_empty body)) = false ->
  serve chat body = refused "No message provided".
Proof.
  intros H. unfold serve, chat_handler. cbv zeta. rewrite H. reflexivity.
Qed.

Lemma explain_refuses_falsy (body : jsval) :
  truthy (get_prop (lit "code") (body_or_empty body)) = false ->
  serve explain body = refused "No code provided".
Proof.
  intros H. unfold serve, explain_handler. cbv zeta. rewrite H. reflexivity.
Qed.

Lemma explain_stream_refuses_falsy (body : jsval) :
  truthy (get_prop (lit "code") (body_or_empty body)) = false ->
  serve explain_stream body = refused "No code provided".
Proof.
  intros H. unfold serve, explain_stream_handler. cbv zeta. rewrite H. reflexivity.
Qed.

(** The loop that streams the chunks writes one line per chunk. *)
Lemma for_each_write (chunks : list jsstring) : forall w : world,
  for_each (R := unit) chunks (fun c => res_write (c ++ nl)) w
  = (Normal tt,
     {| upstream_calls := upstream_calls w; console := console w;
        res := {| statusCode := statusCode (res w); headers := headers (res w);
                  out := out (res w) ++ map (fun c => Text (c ++ nl)) chunks;
                  ended := ended (res w) |} |}).
Proof.
  induction chunks as [|c chunks IH]; intros w.
  - simpl. rewrite app_nil_r. now destruct w as [? ? []].
  - cbn [for_each map]. unfold bind at 1.
    unfold res_write at 1, update_res.
    rewrite IH. cbn [upstream_calls console res statusCode headers out ended].
    now rewrite <- app_assoc.
Qed.

(** The handlers compute the decision tables, and end by [return] or by
    reaching their last statement. *)
Lemma chat_denotation (body : jsval) :
  completed (fst (chat body fresh_world))
  /\ serve chat body
     = chat_world GEMINI_API_KEY GEMINI_MAX_OUTPUT_TOKENS fetch JSON_stringify
         Number_toString body.
Proof.
  unfold serve, chat_handler, chat_world, upstream_answer, request_of, completed.
  cbv zeta.
  destruct (truthy (field "message" body)); [|split; [now right | reflexivity]].
  destruct (is_set GEMINI_API_KEY).
  2:{ destruct (localFallback (field "message" body));
        (split; [auto | reflexivity]). }
  destruct (chat_prompt Number_toString (field "message" body)) as [e | prompt];
    [split; [now left | reflexivity]|].
  run_monad. rewrite callGemini_eq.
  destruct (gemini_outcome JSON_stringify (fetch (request_for prompt)))
    as [[] | v | err]; run_monad; cbn [returned_value];
    try destruct (localFallback (field "message" body));
    (split; [auto | reflexivity]).
Qed.

Lemma explain_denotation (body : jsval) :
  completed (fst (explain body fresh_world))
  /\ serve explain body
     = explain_world GEMINI_API_KEY GEMINI_MAX_OUTPUT_TOKENS fetch JSON_stringify
         Number_toString body.
Proof.
  unfold serve, explain_handler, explain_world, upstream_answer, request_of, completed.
  cbv zeta.
  destruct (truthy (field "code" body)); [|split; [now right | reflexivity]].
  destruct (is_set GEMINI_API_KEY); [|split; [now right | reflexivity]].
  destruct (explain_prompt_of body) as [e | prompt];
    [split; [now right | reflexivity]|].
  run_monad. rewrite callGemini_eq.
  destruct (gemini_outcome JSON_stringify (fetch (request_for prompt)))
    as [[] | v | err]; (split; [auto | reflexivity]).
Qed.

Lemma stream_denotation (body : jsval) :
  completed (fst (explain_stream body fresh_world))
  /\ serve explain_stream body
     = stream_world GEMINI_API_KEY GEMINI_MAX_OUTPUT_TOKENS fetch JSON_stringify
         Number_toString body.
Proof.
  unfold serve, explain_stream_handler, stream_world, upstream_answer, request_of,
    completed.
  cbv zeta.
  destruct (truthy (field "code" body)); [|split; [now right | reflexivity]].
  destruct (is_set GEMINI_API_KEY); [|split; [now right | reflexivity]].
  destruct (explain_prompt_of body) as [e | prompt];
    [split; [now left | reflexivity]|].
  cbv beta iota zeta delta
    [try_catch bind call when ret return_ throw lift update_res res_status
     res_setHeader res_end negb fst snd].
  rewrite callGemini_eq.
  assert (Hlines : forall chunks : list jsstring,
             map (fun c => Text (c ++ nl)) chunks
             = map Text (map (fun c => c ++ nl) chunks))
    by (intros; now rewrite map_map).
  destruct (gemini_outcome JSON_stringify (fetch (request_for prompt)))
    as [[] | v | err]; cbn [returned_value].
  - destruct (chunks_of VUndefined) as [e | chunks]; cbv beta iota.
    + split; [now left | reflexivity].
    + rewrite for_each_write. split; [now left|].
      unfold text_response. now rewrite <- Hlines.
  - destruct (chunks_of v) as [e | chunks]; cbv beta iota.
    + split; [now left | reflexivity].
    + rewrite for_each_write. split; [now left|].
      unfold text_response. now rewrite <- Hlines.
  - split; [now right | reflexivity].
Qed.

(** C10. Validation tests falsiness: every [/api/chat] request whose
    [message] is the empty string, and every [/api/explain] or
    [/api/explain/stream] request whose [code] is the empty string, gets
    status 400 with the missing-field error, exactly as a request without
    the field does, and the upstream is not called.  Nothing is asked of
    the other fields of the request. *)
Theorem empty_field_refused_like_absent_field :
  (forall body absent : jsval,
      field "message" body = VStr [] ->
      field "message" absent = VUndefined ->
      serve chat body = refused "No message provided"
      /\ serve chat absent = serve chat body)
  /\ (forall body absent : jsval,
         field "code" body = VStr [] ->
         field "code" absent = VUndefined ->
         serve explain body = refused "No code provided"
         /\ serve explain absent = serve explain body)
  /\ (forall body absent : jsval,
         field "code" body = VStr [] ->
         field "code" absent = VUndefined ->
         serve explain_stream body = refused "No code provided"
         /\ serve explain_stream absent = serve explain_stream body)
  /\ (forall msg,
         upstream_calls (refused msg) = []
         /\ res (refused msg) = json_response 400 (error_obj msg)
         /\ statusCode (res (refused msg)) = 400%N).
Proof.
  repeat split.
  - apply chat_refuses_falsy. now rewrite H.
  - rewrite !chat_refuses_falsy by (rewrite ?H, ?H0; reflexivity). reflexivity.
  - apply explain_refuses_falsy. now rewrite H.
  - rewrite !explain_refuses_falsy by (rewrite ?H, ?H0; reflexivity). reflexivity.
  - apply explain_stream_refuses_falsy. now rewrite H.
  - rewrite !explain_stream_refuses_falsy by (rewrite ?H, ?H0; reflexivity).
    reflexivity.
Qed.

(** C4. [/api/explain] for a request that provides [code] (one the
    handler does not refuse with [No code provided]) when no key is
    configured: status 400 with the configuration error; nothing is sent
    to the upstream and no local explanation is built. *)
Theorem explain_without_key_is_configuration_error (body : jsval)
  (Hkey : is_set GEMINI_API_KEY = false)
  (Hcode : truthy (get_prop (lit "code") (body_or_empty body)) = true) :
  serve explain body
  = {| upstream_calls := []; console := [];
       res := json_response 400 (error_obj no_key_message) |}.
Proof.
  unfold serve, explain_handler. cbv zeta. rewrite Hcode, Hkey. reflexivity.
Qed.

(** C6. [/api/chat] with [{"message":"hello"}] and no key configured:
    status 200, the greeting of the Local Fallback Responder, which
    begins [Hey -- I'm FitBuddy] (the dash is U+2014), tagged
    [local-fallback]; the upstream is not called. *)
Theorem chat_hello_without_key_is_local_greeting
  (Hkey : is_set GEMINI_API_KEY = false) :
  serve chat (VObj [(lit "message", VStr (lit "hello"))])
  = {| upstream_calls := []; console := [];
       res := json_response 200
                (obj2 "reply" (VStr greeting_reply)
                      "source" (VStr (lit "local-fallback"))) |}
  /\ firstn 18 greeting_reply = lit "Hey " ++ [8212%N] ++ lit " I'm FitBuddy".
Proof.
  split; [|reflexivity].
  unfold serve, chat_handler. cbv zeta. rewrite Hkey. vm_compute. reflexivity.
Qed.

Lemma lowered_string (m : jsstring) : lowered (VStr m) = inr (toLowerCase m).
Proof. destruct m; reflexivity. Qed.

Lemma localFallback_string (m : jsstring) :
  localFallback (VStr m) = inr (canned_reply (toLowerCase m)).
Proof. unfold localFallback. now rewrite lowered_string. Qed.

(** The two routes around one call of [callGemini], by the way it
    completes. *)
Lemma explain_on_upstream_error (body : jsval) (prompt : jsstring) (err : exn)
  (Hkey : is_set GEMINI_API_KEY = true)
  (Hcode : truthy (field "code" body) = true)
  (Hprompt : explain_prompt_of body = inr prompt)
  (Hout : gemini_outcome JSON_stringify (fetch (request_for prompt)) = Thrown err) :
  serve explain body
  = {| upstream_calls := [request_for prompt];
       console := [(lit "Gemini explain failed:", err)];
       res := json_response 502
                (obj2 "error" (VStr (lit "Gemini API error"))
                      "detail" (VStr (String_of_exn err))) |}.
Proof.
  unfold serve, explain_handler. cbv zeta.
  rewrite Hcode, Hkey, Hprompt. run_monad.
  rewrite callGemini_eq, Hout. reflexivity.
Qed.


Lemma chat_on_upstream_error (body : jsval) (m prompt : jsstring) (err : exn)
  (Hkey : is_set GEMINI_API_KEY = true)
  (Hmessage : field "message" body = VStr m)
  (Hm : m <> [])
  (Hprompt : chat_prompt Number_toString (VStr m) = inr prompt)
  (Hout : gemini_outcome JSON_stringify (fetch (request_for prompt)) = Thrown err) :
  serve chat body
  = {| upstream_calls := [request_for prompt];
       console := [(lit "Gemini API call failed:", err)];
       res := json_response 200
                (VObj [(lit "reply", VStr (canned_reply (toLowerCase m)));
                       (lit "source", VStr (lit "fallback"));
                       (lit "error", VStr (String_of_exn err))]) |}.
Proof.
  unfold serve, chat_handler. cbv zeta.
  rewrite Hmessage, Hkey, Hprompt, localFallback_string.
  replace (truthy (VStr m)) with true by (destruct m; [congruence | reflexivity]).
  run_monad.
  rewrite callGemini_eq, Hout. reflexivity.
Qed.


(** A route calls the upstream only after its validation, with the
    prompt it has built. *)
Lemma explain_calls_upstream (body : jsval) (rq : fetch_request) :
  In rq (upstream_calls (serve explain body)) ->
  is_set GEMINI_API_KEY = true
  /\ truthy (field "code" body) = true
  /\ exists prompt, explain_prompt_of body = inr prompt /\ rq = request_for prompt.
Proof.
  unfold serve, explain_handler. cbv zeta.
  destruct (truthy (field "code" body)); [|intros []].
  destruct (is_set GEMINI_API_KEY); [|intros []].
  destruct (explain_prompt_of body) as [e | prompt]; [intros []|].
  run_monad. rewrite callGemini_eq.
  destruct (gemini_outcome JSON_stringify (fetch (request_for prompt)))
    as [[] | v | e];
    (intros [<- | []]; repeat split; exists prompt; now split).
Qed.

Lemma chat_calls_upstream (body : jsval) (rq : fetch_request) :
  In rq (upstream_calls (serve chat body)) ->
  is_set GEMINI_API_KEY = true
  /\ truthy (field "message" body) = true
  /\ exists prompt,
       chat_prompt Number_toString (field "message" body) = inr prompt
       /\ rq = request_for prompt.
Proof.
  unfold serve, chat_handler. cbv zeta.
  destruct (truthy (field "message" body)); [|intros []].
  destruct (is_set GEMINI_API_KEY).
  2:{ destruct (localFallback (field "message" body)); intros []. }
  destruct (chat_prompt Number_toString (field "message" body)) as [e | prompt];
    [intros []|].
  run_monad. rewrite callGemini_eq.
  destruct (gemini_outcome JSON_stringify (fetch (request_for prompt)))
    as [[] | v | e]; run_monad;
    try destruct (localFallback (field "message" body));
    (intros [<- | []]; repeat split; exists prompt; now split).
Qed.

(** C3, for a message that is a text.  With a key configured, when the
    call a route makes to the upstream is answered with a status outside
    200..299 (429, say): [callGemini] throws an error whose message
    carries the status and the body text; [/api/explain] answers 502 with
    [error] and [detail]; [/api/chat], its message being a text, answers
    200 with the reply of the Local Fallback Responder for that message,
    [source] equal to [fallback], and an [error] field; and that call is
    the only one the route has made.  The three parts are independent:
    each holds for its own request, status and body text. *)
Theorem upstream_failure_explain_502_chat_fallback
  (Hkey : is_set GEMINI_API_KEY = true) :
  let failure (status : N) (errorText : jsstring) :=
    Error (lit "Gemini API error " ++ dec status ++ lit ": " ++ errorText) in
  (forall promptText w status errorText parsed,
      status_ok status = false ->
      fetch (request_for promptText) = FetchResponse status errorText parsed ->
      fst (client promptText w) = Thrown (failure status errorText)
      /\ String_of_exn (failure status errorText)
         = lit "Error: Gemini API error " ++ dec status ++ lit ": " ++ errorText)
  /\ (forall body rq status errorText parsed,
         status_ok status = false ->
         In rq (upstream_calls (serve explain body)) ->
         fetch rq = FetchResponse status errorText parsed ->
         res (serve explain body)
         = json_response 502
             (obj2 "error" (VStr (lit "Gemini API error"))
                   "detail" (VStr (String_of_exn (failure status errorText))))
         /\ upstream_calls (serve explain body) = [rq])
  /\ (forall body m rq status errorText parsed,
         status_ok status = false ->
         field "message" body = VStr m ->
         In rq (upstream_calls (serve chat body)) ->
         fetch rq = FetchResponse status errorText parsed ->
         res (serve chat body)
         = json_response 200
             (VObj [(lit "reply", VStr (canned_reply (toLowerCase m)));
                    (lit "source", VStr (lit "fallback"));
                    (lit "error", VStr (String_of_exn (failure status errorText)))])
         /\ localFallback (VStr m) = inr (canned_reply (toLowerCase m))
         /\ upstream_calls (serve chat body) = [rq]).
Proof.
  intros failure.
  assert (Hout : forall status errorText parsed,
             status_ok status = false ->
             gemini_outcome JSON_stringify (FetchResponse status errorText parsed)
             = Thrown (failure status errorText)).
  { intros status errorText parsed Hstatus. unfold gemini_outcome.
    now rewrite Hstatus. }
  split; [|split].
  - intros p w status errorText parsed Hstatus Hp.
    rewrite callGemini_eq, Hp, (Hout _ _ _ Hstatus). now split.
  - intros body rq status errorText parsed Hstatus Hcall Hrq.
    destruct (explain_calls_upstream _ _ Hcall) as (_ & Hcode & prompt & Hp & ->).
    rewrite (@explain_on_upstream_error body prompt (failure status errorText))
      by (trivial; rewrite Hrq; now apply Hout).
    now split.
  - intros body m rq status errorText parsed Hstatus Hmessage Hcall Hrq.
    destruct (chat_calls_upstream _ _ Hcall) as (_ & Htruthy & prompt & Hp & ->).
    rewrite Hmessage in Htruthy, Hp.
    assert (Hm : m <> []) by (intros ->; discriminate).
    rewrite (@chat_on_upstream_error body m prompt (failure status errorText))
      by (trivial; rewrite Hrq; now apply Hout).
    repeat split. apply localFallback_string.
Qed.



(** The usual shape of a successful answer: the text of the first part
    of the first candidate is what the chain of optional accesses finds. *)
Lemma first_part_text_found (v : jsval) (cands parts : list jsval)
  (others1 others2 others3 others4 : list (jsstring * jsval)) :
  first_part_text
    (VObj ((lit "candidates",
            VArr (VObj ((lit "content",
                         VObj ((lit "parts",
                                VArr (VObj ((lit "text", v) :: others4) :: parts))
                               :: others3))
                        :: others2)
                  :: cands))
           :: others1))
  = v.
Proof. reflexivity. Qed.

(** C5. When the upstream answers in the 200s with a body that parses:
    if [candidates[0].content.parts[0].text] is a non-empty string,
    [callGemini] returns it; if the path is absent (the chain of optional
    accesses yields [undefined]), it does not throw but returns the whole
    body serialized with [JSON.stringify]. *)
Theorem first_candidate_text_or_serialized_body
  (promptText : jsstring) (status : N) (text : jsstring) (data : jsval)
  (w : world)
  (Hfetch : fetch (request_for promptText) = FetchResponse status text (inr data))
  (Hok : status_ok status = true) :
  (forall t, first_part_text data = VStr t -> t <> [] ->
             fst (client promptText w) = Returned (VStr t))
  /\ (first_part_text data = VUndefined ->
      fst (client promptText w) = Returned (VStr (JSON_stringify data))).
Proof.
  rewrite callGemini_eq, Hfetch. unfold gemini_outcome. rewrite Hok.
  split.
  - intros t -> Ht. destruct t; [congruence | reflexivity].
  - intros ->. reflexivity.
Qed.

(** C7. The Local Fallback Responder on message strings.  Matching is
    case-insensitive: two messages that differ only in the case of ASCII
    letters get the same reply, and [WORKOUT] gets the workout reply, as
    [workout] does.  Every message string gets one of the four fixed
    replies, and it gets the catch-all reply exactly when none of the
    eleven keywords occurs in its lower-cased form as a whole word (as for
    [Is this healthy?], where [hi] is only part of a word).  The reply is
    a function of the message alone and computing it leaves no trace:
    whatever the upstream, the other settings and the other fields of the
    request, [/api/chat] without a key leaves nothing behind but its one
    response, which carries that reply. *)
Theorem localFallback_pure_and_case_insensitive :
  (forall m m' : jsstring,
      case_variant m m' ->
      localFallback (VStr m) = localFallback (VStr m'))
  /\ localFallback (VStr (lit "WORKOUT")) = inr workout_reply
  /\ localFallback (VStr (lit "workout")) = inr workout_reply
  /\ (forall m : jsstring,
         exists reply,
           localFallback (VStr m) = inr reply
           /\ In reply [workout_reply; diet_reply; greeting_reply; catch_all_reply])
  /\ (forall m : jsstring,
         localFallback (VStr m) = inr catch_all_reply
         <-> ~ has_word_of workout_words (toLowerCase m)
             /\ ~ has_word_of diet_words (toLowerCase m)
             /\ ~ has_word_of greeting_words (toLowerCase m))
  /\ localFallback (VStr (lit "Is this healthy?")) = inr catch_all_reply
  /\ (forall (body : jsval) (m reply : jsstring),
         is_set GEMINI_API_KEY = false ->
         field "message" body = VStr m -> m <> [] ->
         localFallback (VStr m) = inr reply ->
         serve chat body
         = {| upstream_calls := []; console := [];
              res := json_response 200
                       (obj2 "reply" (VStr reply)
                             "source" (VStr (lit "local-fallback"))) |}).
Proof.
  split; [|split; [|split; [|split; [|split; [|split]]]]].
  - intros m m' H.
    now rewrite !localFallback_string, (toLowerCase_case_variant H).
  - vm_compute. reflexivity.
  - vm_compute. reflexivity.
  - intros m. rewrite localFallback_string. unfold canned_reply.
    destruct (regex_test workout_re (toLowerCase m));
      [|destruct (regex_test diet_re (toLowerCase m));
        [|destruct (regex_test greeting_re (toLowerCase m))]];
      eexists; (split; [reflexivity | cbn [In]; tauto]).
  - intros m. rewrite localFallback_string.
    destruct (canned_reply_by_words (toLowerCase m)) as (_ & _ & _ & <-).
    split; [now intros [= ->] | now intros ->].
  - vm_compute. reflexivity.
  - intros body m reply Hkey Hmessage Hm Hreply.
    destruct (chat_denotation body) as [_ ->]. unfold chat_world. cbv zeta.
    rewrite Hmessage, Hkey, Hreply.
    replace (truthy (VStr m)) with true by (destruct m; [congruence | reflexivity]).
    reflexivity.
Qed.

(** C9. The request of [callGemini]: the URL names the fixed model
    [gemini-2.5-flash]; the body, sent serialized, has the prompt as the
    only part of its only message, of role [user]; and its
    [generationConfig] has [maxOutputTokens] read with [parseInt] from
    [GEMINI_MAX_OUTPUT_TOKENS] when that is set and 512 otherwise, and
    [temperature] 0.2. *)
Theorem gemini_request_shape (promptText : jsstring) (w : world) :
  let body := gemini_body GEMINI_MAX_OUTPUT_TOKENS promptText in
  let config := get_prop (lit "generationConfig") body in
  upstream_calls (snd (client promptText w))
  = upstream_calls w ++ [request_for promptText]
  /\ url (request_for promptText)
     = lit "https://generativelanguage.googleapis.com/v1beta/models/gemini-2.5-flash:generateContent"
  /\ req_body (request_for promptText) = JSON_stringify body
  /\ get_prop (lit "contents") body
     = VArr [VObj [(lit "role", VStr (lit "user"));
                   (lit "parts", VArr [VObj [(lit "text", VStr promptText)]])]]
  /\ (is_set GEMINI_MAX_OUTPUT_TOKENS = false ->
      get_prop (lit "maxOutputTokens") config = VNum 512%float)
  /\ (forall v, GEMINI_MAX_OUTPUT_TOKENS = Some v -> v <> [] ->
      get_prop (lit "maxOutputTokens") config = VNum (parseInt10 v))
  /\ get_prop (lit "temperature") config = VNum 0.2%float.
Proof.
  intros body config. rewrite callGemini_eq.
  repeat split.
  - destruct GEMINI_MAX_OUTPUT_TOKENS as [[|c v]|]; [reflexivity | discriminate | reflexivity].
  - intros v -> Hv. destruct v; [congruence | reflexivity].
Qed.

(** C8. Whatever the request and whatever the upstream does,
    [/api/explain] answers in one of five ways: the validation error, the
    configuration error, the internal error, the upstream text tagged
    [gemini], or the upstream error.  The statements after the inner
    [try]/[catch] -- the call of [naiveExplain] and the response tagged
    [local-fallback] -- are never reached. *)
Theorem explain_never_answers_local_fallback (body : jsval) :
  exists (n : N) (v : jsval),
    res (serve explain body) = json_response n v
    /\ get_prop (lit "source") v <> VStr (lit "local-fallback")
    /\ ((n = 400%N /\ v = error_obj "No code provided")
        \/ (n = 400%N /\ v = error_obj no_key_message)
        \/ (n = 500%N /\ v = error_obj "Server error")
        \/ (n = 200%N
            /\ exists explanation,
                 v = obj2 "explanation" explanation "source" (VStr (lit "gemini")))
        \/ (n = 502%N
            /\ exists detail,
                 v = obj2 "error" (VStr (lit "Gemini API error"))
                          "detail" (VStr detail))).
Proof.
  unfold serve, explain_handler. cbv zeta.
  destruct (truthy (field "code" body)).
  2:{ exists 400%N, (error_obj "No code provided").
      split; [reflexivity | split; [discriminate | tauto]]. }
  destruct (is_set GEMINI_API_KEY).
  2:{ exists 400%N, (error_obj no_key_message).
      split; [reflexivity | split; [discriminate | tauto]]. }
  destruct (explain_prompt_of body) as [e | prompt].
  { exists 500%N, (error_obj "Server error").
    split; [reflexivity | split; [discriminate | tauto]]. }
  run_monad. rewrite callGemini_eq.
  destruct (gemini_outcome JSON_stringify (fetch (request_for prompt)))
    as [[] | explanation | e].
  - (* the body of [callGemini] always returns or throws *)
    exists 200%N, (obj2 "explanation" VUndefined "source" (VStr (lit "gemini"))).
    split; [reflexivity | split; [vm_compute; discriminate |]].
    do 3 right. left. eauto.
  - exists 200%N, (obj2 "explanation" explanation "source" (VStr (lit "gemini"))).
    split; [reflexivity | split; [vm_compute; discriminate |]].
    do 3 right. left. eauto.
  - exists 502%N, (obj2 "error" (VStr (lit "Gemini API error"))
                        "detail" (VStr (String_of_exn e))).
    split; [reflexivity | split; [vm_compute; discriminate |]].
    do 4 right. eauto.
Qed.

(** X1. [/api/explain/stream], when the upstream answers with a text:
    the lines of the response are the chunks of the Chunking Splitter, in
    order, and the stream is closed after them. *)
Lemma stream_writes_the_chunks
  (body : jsval) (prompt : jsstring) (status : N) (text t : jsstring)
  (data : jsval)
  (Hkey : is_set GEMINI_API_KEY = true)
  (Hcode : truthy (field "code" body) = true)
  (Hprompt : explain_prompt_of body = inr prompt)
  (Hfetch : fetch (request_for prompt) = FetchResponse status text (inr data))
  (Hok : status_ok status = true)
  (Htext : first_part_text data = VStr t)
  (Ht : t <> []) :
  serve explain_stream body
  = {| upstream_calls := [request_for prompt];
       console := [];
       res := {| statusCode := 200;
                 headers := [(lit "Content-Type", lit "text/plain; charset=utf-8");
                             (lit "Cache-Control", lit "no-cache");
                             (lit "Connection", lit "keep-alive")];
                 out := map (fun c => Text (c ++ nl)) (split_chunks t);
                 ended := true |} |}.
Proof.
  unfold serve, explain_stream_handler. cbv zeta.
  rewrite Hcode, Hkey, Hprompt.
  cbv beta iota zeta delta
    [try_catch bind call when ret return_ throw lift update_res res_status
     res_setHeader res_end negb fst snd].
  rewrite callGemini_eq, Hfetch. unfold gemini_outcome.
  rewrite Hok, Htext.
  replace (truthy (VStr t)) with true by (destruct t; [congruence | reflexivity]).
  unfold chunks_of.
  replace (truthy (VStr t)) with true by (destruct t; [congruence | reflexivity]).
  cbv beta iota.
  rewrite for_each_write. reflexivity.
Qed.

Local Abbreviation chat_table :=
  (chat_world GEMINI_API_KEY GEMINI_MAX_OUTPUT_TOKENS fetch JSON_stringify
     Number_toString).
Local Abbreviation explain_table :=
  (explain_world GEMINI_API_KEY GEMINI_MAX_OUTPUT_TOKENS fetch JSON_stringify
     Number_toString).
Local Abbreviation stream_table :=
  (stream_world GEMINI_API_KEY GEMINI_MAX_OUTPUT_TOKENS fetch JSON_stringify
     Number_toString).

Ltac table_cases :=
  cbv zeta;
  repeat
    (match goal with
     | |- context [truthy (get_prop ?k (body_or_empty ?b))] =>
       destruct (truthy (get_prop k (body_or_empty b))) eqn:?
     | |- context [is_set ?k] => destruct (is_set k) eqn:?
     | |- context [localFallback ?m] => destruct (localFallback m) eqn:?
     | |- context [chat_prompt ?n ?m] => destruct (chat_prompt n m) eqn:?
     | |- context [explain_prompt ?n ?c ?m ?l] =>
       destruct (explain_prompt n c m l) eqn:?
     | |- context [upstream_answer ?a ?b ?c ?d ?p] =>
       destruct (upstream_answer a b c d p) eqn:?
     | |- context [chunks_of ?v] => destruct (chunks_of v) eqn:?
     end; cbn [negb]).

Lemma completed_not_thrown (c : completion unit unit) :
  completed c -> forall e, c <> Thrown e.
Proof. intros [-> | ->] e; discriminate. Qed.

(** X10. No exception leaves a handler.  Whatever the body, and however
    the call to the upstream settles, every error thrown inside a handler
    (by [callGemini], by the Local Fallback Responder on a message that is
    not a text, by [split] on an answer that is not a text, by the
    conversion of a field for the prompt) is caught: the handler ends by
    [return] or by reaching its last statement, and the response has been
    ended by then.  (A call that never settles is not covered: the
    handler awaits it with no timeout.) *)
Theorem no_exception_leaves_a_handler (body : jsval) :
  (forall e, fst (chat body fresh_world) <> Thrown e)
  /\ ended (res (serve chat body)) = true
  /\ (forall e, fst (explain body fresh_world) <> Thrown e)
  /\ ended (res (serve explain body)) = true
  /\ (forall e, fst (explain_stream body fresh_world) <> Thrown e)
  /\ ended (res (serve explain_stream body)) = true.
Proof.
  destruct (chat_denotation body) as [Hc ->].
  destruct (explain_denotation body) as [He ->].
  destruct (stream_denotation body) as [Hs ->].
  repeat split; try now apply completed_not_thrown.
  - unfold chat_world. table_cases; reflexivity.
  - unfold explain_world. table_cases; reflexivity.
  - unfold stream_world. table_cases; reflexivity.
Qed.

Lemma request_of_shape (promptText : jsstring) :
  method (request_for promptText) = lit "POST"
  /\ url (request_for promptText)
     = lit "https://generativelanguage.googleapis.com/v1beta/models/gemini-2.5-flash:generateContent"
  /\ In (lit "x-goog-api-key", GEMINI_API_KEY) (req_headers (request_for promptText)).
Proof. repeat split. right. now left. Qed.

(** X11. A request makes at most one call to the upstream, and none when
    no key is configured; a call is a POST to the [generateContent] URL
    of the fixed model with the configured key in [x-goog-api-key]. *)
Theorem upstream_called_at_most_once_with_the_key
  (body : jsval) (handler : jsval -> M unit unit)
  (Hroute : handler = chat \/ handler = explain \/ handler = explain_stream) :
  length (upstream_calls (serve handler body)) <= 1
  /\ forall rq, In rq (upstream_calls (serve handler body)) ->
       is_set GEMINI_API_KEY = true
       /\ method rq = lit "POST"
       /\ url rq
          = lit "https://generativelanguage.googleapis.com/v1beta/models/gemini-2.5-flash:generateContent"
       /\ In (lit "x-goog-api-key", GEMINI_API_KEY) (req_headers rq).
Proof.
  destruct Hroute as [-> | [-> | ->]];
    [ destruct (chat_denotation body) as [_ ->]; unfold chat_world
    | destruct (explain_denotation body) as [_ ->]; unfold explain_world
    | destruct (stream_denotation body) as [_ ->]; unfold stream_world ];
    table_cases; cbn [upstream_calls refused];
    (split; [simpl; lia|]);
    first [ intros rq [H | []]; subst rq; repeat split; right; now left
          | intros rq [] ].
Qed.

(** X12. [/api/chat] answers in one of five ways, always with JSON and
    never with status 502: the validation error; the reply of the Local
    Fallback Responder tagged [local-fallback], when no key is
    configured; the upstream value tagged [gemini]; the reply of the
    Local Fallback Responder tagged [fallback] with the error of the
    upstream; or the internal error. *)
Theorem chat_answers (body : jsval) :
  let message := field "message" body in
  exists (n : N) (v : jsval),
    res (serve chat body) = json_response n v
    /\ ((n = 400%N /\ v = error_obj "No message provided"
         /\ truthy message = false)
        \/ (n = 200%N /\ is_set GEMINI_API_KEY = false
            /\ exists reply,
                 localFallback message = inr reply
                 /\ v = obj2 "reply" (VStr reply) "source" (VStr (lit "local-fallback")))
        \/ (n = 200%N
            /\ exists reply, v = obj2 "reply" reply "source" (VStr (lit "gemini")))
        \/ (n = 200%N
            /\ exists reply err,
                 localFallback message = inr reply
                 /\ v = VObj [(lit "reply", VStr reply);
                              (lit "source", VStr (lit "fallback"));
                              (lit "error", VStr (String_of_exn err))])
        \/ (n = 500%N /\ v = error_obj "Server error")).
Proof.
  intros message. subst message.
  destruct (chat_denotation body) as [_ ->]. unfold chat_world.
  table_cases; eexists _, _; (split; [reflexivity|]).
  all: first
    [ left; repeat split; reflexivity
    | right; left; repeat split; eauto; fail
    | do 2 right; left; split; [reflexivity | eauto]; fail
    | do 3 right; left; split; [reflexivity | eauto]; fail
    | do 4 right; split; reflexivity ].
Qed.

(** X13. [/api/explain/stream] answers in one of five ways: one of the
    two 400 errors as JSON (nothing else has been set); status 500 with
    the text [Server error]; status 502 with the one line
    [Error: Gemini API failed]; or status 200 with one line per chunk of
    a text.  The last two carry the three streaming headers. *)
Theorem stream_answers (body : jsval) :
  let r := res (serve explain_stream body) in
  r = json_response 400 (error_obj "No code provided")
  \/ r = json_response 400
           (error_obj "GEMINI_API_KEY is not set in server environment")
  \/ (exists hs, r = text_response 500 hs [lit "Server error"])
  \/ r = text_response 502 stream_headers [lit "Error: Gemini API failed" ++ nl]
  \/ (exists t, r = text_response 200 stream_headers
                      (map (fun c => c ++ nl) (split_chunks t))).
Proof.
  intros r. subst r.
  destruct (stream_denotation body) as [_ ->]. unfold stream_world.
  cbv zeta.
  destruct (truthy (field "code" body)); cbn [negb]; [|now left].
  destruct (is_set GEMINI_API_KEY); cbn [negb]; [|right; now left].
  destruct (explain_prompt_of body) as [e | prompt];
    [do 2 right; left; eexists; reflexivity|].
  destruct (upstream_answer _ _ _ _ prompt) as [err | v];
    [do 3 right; now left|].
  unfold chunks_of.
  destruct (if truthy v then v else VStr []); cbn [res];
    first [do 2 right; left; eauto; fail | do 4 right; eauto].
Qed.

(** X14. [callGemini] makes exactly one call to the upstream and
    touches nothing else.  It throws exactly when the transport fails,
    when the status is outside 200..299 (the error carries the status and
    the body text) or when the body of a 2xx answer does not parse;
    otherwise it returns the text of the first part if that is truthy and
    the serialized body if not.  It never ends without a value. *)
Theorem callGemini_completion (promptText : jsstring) (w : world) :
  let rq := request_for promptText in
  let c := fst (client promptText w) in
  snd (client promptText w) = log_call w rq
  /\ (forall e,
        c = Thrown e
        <-> fetch rq = FetchRejected e
            \/ exists status text parsed,
                 fetch rq = FetchResponse status text parsed
                 /\ ((status_ok status = false
                      /\ e = Error (lit "Gemini API error " ++ dec status
                                    ++ lit ": " ++ text))
                     \/ (status_ok status = true /\ parsed = inl e)))
  /\ (forall v,
        c = Returned v
        <-> exists status text data,
              fetch rq = FetchResponse status text (inr data)
              /\ status_ok status = true
              /\ v = if truthy (first_part_text data) then first_part_text data
                     else VStr (JSON_stringify data))
  /\ c <> Normal tt.
Proof.
  intros rq c. subst rq c. rewrite callGemini_eq. cbn [fst snd].
  unfold gemini_outcome.
  split; [reflexivity|].
  destruct (fetch (request_for promptText)) as [e0 | status text parsed].
  { split; [|split; [|discriminate]].
    - intros e. split.
      + intros [= <-]. now left.
      + intros [H | (? & ? & ? & H & _)]; congruence.
    - intros v. split; [discriminate|].
      intros (? & ? & ? & H & _). discriminate. }
  destruct (status_ok status) eqn:Hok.
  - destruct parsed as [e0 | data].
    + split; [|split; [|discriminate]].
      * intros e. split.
        -- intros [= <-]. right. exists status, text, (inl e0). auto.
        -- intros [H | (? & ? & ? & H & [[H1 _] | [_ H2]])]; congruence.
      * intros v. split; [discriminate|].
        intros (? & ? & ? & H & _). discriminate.
    + destruct (truthy (first_part_text data)) eqn:Htruthy;
        (split; [|split; [|discriminate]]).
      * intros e. split; [discriminate|].
        intros [H | (? & ? & ? & H & [[H1 _] | [_ H2]])]; congruence.
      * intros v. split.
        -- intros [= <-]. exists status, text, data. now rewrite Htruthy.
        -- intros (? & ? & ? & [= <- <- <-] & _ & ->). now rewrite Htruthy.
      * intros e. split; [discriminate|].
        intros [H | (? & ? & ? & H & [[H1 _] | [_ H2]])]; congruence.
      * intros v. split.
        -- intros [= <-]. exists status, text, data. now rewrite Htruthy.
        -- intros (? & ? & ? & [= <- <- <-] & _ & ->). now rewrite Htruthy.
  - split; [|split; [|discriminate]].
    + intros e. split.
      * intros [= <-]. right. exists status, text, parsed. auto.
      * intros [H | (? & ? & ? & H & [[_ H1] | [H2 _]])]; congruence.
    + intros v. split; [discriminate|].
      intros (? & ? & ? & H & H1 & _). congruence.
Qed.






(** X21. The two explain routes make the same calls to the upstream for
    the same request: the streaming route asks for the whole text once,
    with the prompt of [/api/explain], and only then writes its lines. *)
Theorem explain_routes_call_alike (body : jsval) :
  upstream_calls (serve explain_stream body)
  = upstream_calls (serve explain body).
Proof.
  destruct (explain_denotation body) as [_ ->].
  destruct (stream_denotation body) as [_ ->].
  unfold explain_world, stream_world. table_cases; reflexivity.
Qed.

(** X22. A [message] that is truthy but not a text (a number, an object)
    passes the validation of [/api/chat], and is answered only if the
    upstream answers: without a key, or when [callGemini] throws, the
    Local Fallback Responder fails on it and the route ends in the
    internal error. *)
Theorem non_text_message_needs_the_upstream (body : jsval)
  (Htruthy : truthy (field "message" body) = true)
  (Hnot_text : forall t, field "message" body <> VStr t) :
  (is_set GEMINI_API_KEY = false ->
   res (serve chat body) = json_response 500 (error_obj "Server error"))
  /\ (is_set GEMINI_API_KEY = true ->
      forall prompt w,
        chat_prompt Number_toString (field "message" body) = inr prompt ->
        (forall err, fst (client prompt w) = Thrown err ->
                     res (serve chat body)
                     = json_response 500 (error_obj "Server error"))
        /\ (forall reply, fst (client prompt w) = Returned reply ->
                          res (serve chat body)
                          = json_response 200
                              (obj2 "reply" reply "source" (VStr (lit "gemini"))))).
Proof.
  assert (Hfb : exists e, localFallback (field "message" body) = inl e).
  { unfold localFallback, lowered. rewrite Htruthy.
    destruct (field "message" body) as [| | | |t| |]; eauto.
    now destruct (Hnot_text t). }
  destruct Hfb as [e Hfb].
  destruct (chat_denotation body) as [_ ->]. unfold chat_world. cbv zeta.
  rewrite Htruthy, Hfb. cbn [negb].
  split; intros Hkey; rewrite Hkey; cbn [negb]; [reflexivity|].
  intros prompt w Hprompt. rewrite Hprompt, callGemini_eq. cbn [fst].
  unfold upstream_answer, request_of.
  split; intros x Hx; rewrite Hx; reflexivity.
Qed.

(** *** The older copy *)

Local Abbreviation older_client :=
  (ServerJs.callGemini GEMINI_API_KEY fetch JSON_stringify).
Local Abbreviation older_request_for :=
  (fun promptText =>
     ServerJs.gemini_request GEMINI_API_KEY JSON_stringify promptText model).
Local Abbreviation older_chat :=
  (ServerJs.chat_handler GEMINI_API_KEY fetch JSON_stringify Number_toString).

Lemma older_callGemini_eq (promptText : jsstring) (w : world) :
  older_client promptText w
  = (gemini_outcome JSON_stringify (fetch (older_request_for promptText)),
     log_call w (older_request_for promptText)).
Proof.
  unfold ServerJs.callGemini. rewrite encoded_model.
  unfold await_fetch, gemini_outcome. run_monad.
  destruct (fetch _) as [e | status text parsed]; [reflexivity|].
  destruct (status_ok status); [|reflexivity].
  destruct parsed as [e | data]; [reflexivity|].
  destruct (truthy (first_part_text data)); reflexivity.
Qed.

Lemma older_localFallback (message : jsval) :
  localFallback message <> inr greeting_reply ->
  ServerJs.localFallback message = localFallback message.
Proof.
  unfold ServerJs.localFallback, localFallback, canned_reply.
  destruct (lowered message) as [e | msg]; [reflexivity|].
  destruct (regex_test workout_re msg); [reflexivity|].
  destruct (regex_test diet_re msg); [reflexivity|].
  destruct (regex_test greeting_re msg); [congruence | reflexivity].
Qed.

(** X17. The older copy of the server ([src/server.js]) answers
    [/api/chat] as the current one does, and logs the same errors,
    whenever the upstream answers its request (which has an empty
    [generationConfig]) as it answers the current one, and the reply of
    the Local Fallback Responder is not the greeting (whose dash the older
    copy stores differently).  Its request differs from the current one
    in the body only. *)
Theorem older_copy_chat_agrees (body : jsval)
  (Hfetch : forall p, fetch (older_request_for p) = fetch (request_for p))
  (Hreply : localFallback (field "message" body) <> inr greeting_reply) :
  res (serve older_chat body) = res (serve chat body)
  /\ console (serve older_chat body) = console (serve chat body)
  /\ length (upstream_calls (serve older_chat body))
     = length (upstream_calls (serve chat body))
  /\ forall p,
       url (older_request_for p) = url (request_for p)
       /\ method (older_request_for p) = method (request_for p)
       /\ req_headers (older_request_for p) = req_headers (request_for p)
       /\ req_body (older_request_for p)
          = JSON_stringify (ServerJs.gemini_body p).
Proof.
  destruct (chat_denotation body) as [_ ->].
  unfold serve, ServerJs.chat_handler, chat_world, upstream_answer, request_of.
  cbv zeta.
  rewrite (@older_localFallback _ Hreply).
  destruct (truthy (field "message" body)); [|repeat split].
  destruct (is_set GEMINI_API_KEY).
  2:{ destruct (localFallback (field "message" body)); repeat split. }
  destruct (chat_prompt Number_toString (field "message" body)) as [e | prompt];
    [repeat split|].
  run_monad. rewrite older_callGemini_eq, Hfetch.
  destruct (gemini_outcome JSON_stringify (fetch (request_for prompt)))
    as [[] | v | err]; run_monad; cbn [returned_value];
    try destruct (localFallback (field "message" body));
    repeat split.
Qed.

(** X9. The reply of the Local Fallback Responder to a text is decided
    by the whole words of its lower-cased form: the workout reply exactly
    when one of [workout], [exercise], [plan], [routine] occurs as a whole
    word; otherwise the diet reply exactly when one of [diet], [calorie],
    [protein], [meal] does; otherwise the greeting exactly when one of
    [hi], [hello], [hey] does; and the catch-all reply exactly when none
    of the eleven words does. *)
Theorem localFallback_answers_by_whole_words (m : jsstring) :
  let l := toLowerCase m in
  (localFallback (VStr m) = inr workout_reply <-> has_word_of workout_words l)
  /\ (localFallback (VStr m) = inr diet_reply
      <-> ~ has_word_of workout_words l /\ has_word_of diet_words l)
  /\ (localFallback (VStr m) = inr greeting_reply
      <-> ~ has_word_of workout_words l /\ ~ has_word_of diet_words l
          /\ has_word_of greeting_words l)
  /\ (localFallback (VStr m) = inr catch_all_reply
      <-> ~ has_word_of workout_words l /\ ~ has_word_of diet_words l
          /\ ~ has_word_of greeting_words l).
Proof.
  intros l. rewrite localFallback_string. fold l. unfold canned_reply.
  change workout_re with (keyword_re workout_words).
  change diet_re with (keyword_re diet_words).
  change greeting_re with (keyword_re greeting_words).
  destruct keyword_lists as (Kw & Kd & Kg).
  pose proof (keyword_test l Kw) as Hw.
  pose proof (keyword_test l Kd) as Hd.
  pose proof (keyword_test l Kg) as Hg.
  fold (has_word_of workout_words l) in Hw.
  fold (has_word_of diet_words l) in Hd.
  fold (has_word_of greeting_words l) in Hg.
  destruct replies_differ as (D1 & D2 & D3 & D4 & D5 & D6).
  destruct (regex_test (keyword_re workout_words) l);
    destruct (regex_test (keyword_re diet_words) l);
    destruct (regex_test (keyword_re greeting_words) l);
    intuition congruence.
Qed.

End RelayProperties.

(** ** The statements on concrete requests *)

(** The first chunk of [long_text] is its over-long first sentence. *)
Lemma chunk_length_witness :
  In long_sentence (split_chunks long_text)
  /\ (length long_sentence <= 240
      \/ exists s, In s (sentences_of long_text) /\ 240 < length s
                   /\ long_sentence = trim s)
  /\ exists pre g post,
       sentences_of long_text = pre ++ g ++ post /\ g <> []
       /\ long_sentence = trim (join (lit " ") g).
Proof.
  assert (H : In long_sentence (split_chunks long_text))
    by (vm_compute; left; reflexivity).
  split; [exact H|].
  exact (chunk_length_bounded_unless_single_sentence long_text long_sentence H).
Defined.

Lemma upstream_failure_witness :
  statusCode (res (serve (explain_handler sample_key None upstream_429
                            sample_stringify sample_number_toString) code_body))
  = 502%N
  /\ res (serve (chat_handler sample_key None upstream_429
                   sample_stringify sample_number_toString) hello_body)
     = json_response 200
         (VObj [(lit "reply", VStr greeting_reply);
                (lit "source", VStr (lit "fallback"));
                (lit "error",
                 VStr (lit "Error: Gemini API error 429: quota exceeded"))]).
Proof.
  pose proof
    (@upstream_failure_explain_502_chat_fallback
       sample_key None upstream_429 sample_stringify sample_number_toString
       eq_refl) as H.
  cbv zeta in H. destruct H as (_ & He & Hc).
  destruct (He code_body
              (gemini_request sample_key None sample_stringify
                 sample_explain_prompt model)
              429%N (lit "quota exceeded") (inl (Error (lit "not read")))
              eq_refl (or_introl eq_refl) eq_refl) as [He' _].
  destruct (Hc hello_body (lit "hello")
              (gemini_request sample_key None sample_stringify
                 sample_chat_prompt model)
              429%N (lit "quota exceeded") (inl (Error (lit "not read")))
              eq_refl eq_refl (or_introl eq_refl) eq_refl) as (Hc' & _ & _).
  rewrite He', Hc'. split; reflexivity.
Defined.

(** C3, as stated, fails for a message that is not a text.  With a key
    configured and the upstream answering 429, the request
    [{"message": 5}] passes the validation and its one call fails; the
    Local Fallback Responder then throws on the number, and the route
    answers 500 with the internal error: not 200, no reply and no
    [source]. *)
Lemma upstream_failure_number_message_is_500 :
  let w := serve (chat_handler sample_key None upstream_429 sample_stringify
                    sample_number_toString) number_body in
  is_set sample_key = true
  /\ (exists rq,
        upstream_calls w = [rq]
        /\ upstream_429 rq
           = FetchResponse 429 (lit "quota exceeded") (inl (Error (lit "not read")))
        /\ status_ok 429 = false)
  /\ res w = json_response 500 (error_obj "Server error")
  /\ statusCode (res w) <> 200%N
  /\ (forall v, In (Json v) (out (res w)) ->
                get_prop (lit "source") v <> VStr (lit "fallback")).
Proof.
  split; [reflexivity|]. split; [eexists; repeat split|].
  split; [vm_compute; reflexivity|]. split; [vm_compute; discriminate|].
  intros v Hv. vm_compute in Hv. destruct Hv as [[= <-] | []].
  vm_compute. discriminate.
Qed.

Lemma explain_without_key_witness :
  serve (explain_handler None None upstream_429 sample_stringify
           sample_number_toString) code_body
  = {| upstream_calls := []; console := [];
       res := json_response 400 (error_obj no_key_message) |}.
Proof.
  exact (@explain_without_key_is_configuration_error
           None None upstream_429 sample_stringify sample_number_toString
           code_body eq_refl eq_refl).
Defined.

Lemma first_candidate_text_witness :
  fst (callGemini sample_key None
         (upstream_200 (answer_with (VStr (lit "A. B. C."))))
         sample_stringify (lit "prompt") fresh_world)
  = Returned (VStr (lit "A. B. C."))
  /\ fst (callGemini sample_key None (upstream_200 (VObj []))
            sample_stringify (lit "prompt") fresh_world)
     = Returned (VStr (sample_stringify (VObj []))).
Proof.
  split.
  - refine (proj1 (@first_candidate_text_or_serialized_body
                     sample_key None
                     (upstream_200 (answer_with (VStr (lit "A. B. C."))))
                     sample_stringify (lit "prompt") 200%N []
                     (answer_with (VStr (lit "A. B. C."))) fresh_world
                     eq_refl eq_refl) (lit "A. B. C.") eq_refl _).
    discriminate.
  - exact (proj2 (@first_candidate_text_or_serialized_body
                    sample_key None (upstream_200 (VObj []))
                    sample_stringify (lit "prompt") 200%N [] (VObj [])
                    fresh_world eq_refl eq_refl) eq_refl).
Defined.

Lemma chat_hello_witness :
  serve (chat_handler None None upstream_429 sample_stringify
           sample_number_toString) hello_body
  = {| upstream_calls := []; console := [];
       res := json_response 200
                (obj2 "reply" (VStr greeting_reply)
                      "source" (VStr (lit "local-fallback"))) |}.
Proof.
  exact (proj1 (@chat_hello_without_key_is_local_greeting
                  None None upstream_429 sample_stringify sample_number_toString
                  eq_refl)).
Defined.

Lemma empty_field_witness :
  serve (chat_handler sample_key None upstream_429 sample_stringify
           sample_number_toString) empty_message_body
  = refused "No message provided"
  /\ serve (explain_handler sample_key None upstream_429 sample_stringify
              sample_number_toString) empty_code_body
     = refused "No code provided"
  /\ serve (explain_stream_handler sample_key None upstream_429 sample_stringify
              sample_number_toString) empty_code_body
     = refused "No code provided".
Proof.
  pose proof
    (@empty_field_refused_like_absent_field
       sample_key None upstream_429 sample_stringify sample_number_toString)
    as (Hc & He & Hs & _).
  split; [|split].
  - exact (proj1 (Hc empty_message_body (VObj []) eq_refl eq_refl)).
  - exact (proj1 (He empty_code_body (VObj []) eq_refl eq_refl)).
  - exact (proj1 (Hs empty_code_body (VObj []) eq_refl eq_refl)).
Defined.

Lemma stream_chunks_witness :
  serve (explain_stream_handler sample_key None
           (upstream_200 (answer_with (VStr (lit "A. B. C."))))
           sample_stringify sample_number_toString) code_body
  = {| upstream_calls :=
         [gemini_request sample_key None sample_stringify sample_explain_prompt model];
       console := [];
       res := {| statusCode := 200;
                 headers := [(lit "Content-Type", lit "text/plain; charset=utf-8");
                             (lit "Cache-Control", lit "no-cache");
                             (lit "Connection", lit "keep-alive")];
                 out := map (fun c => Text (c ++ nl)) (split_chunks (lit "A. B. C."));
                 ended := true |} |}.
Proof.
  refine (@stream_writes_the_chunks
            sample_key None (upstream_200 (answer_with (VStr (lit "A. B. C."))))
            sample_stringify sample_number_toString code_body
            sample_explain_prompt 200%N [] (lit "A. B. C.")
            (answer_with (VStr (lit "A. B. C.")))
            eq_refl eq_refl eq_refl eq_refl eq_refl eq_refl _).
  discriminate.
Defined.



Lemma sentences_shape_witness :
  solid_end (lit "B.") /\ clean_start (lit "B.").
Proof.
  assert (Hsplit : sentences_of (lit "A. B. C.")
                   = [lit "A."] ++ lit "B." :: [lit "C."])
    by (vm_compute; reflexivity).
  destruct (@sentences_shape (lit "A. B. C.") [lit "A."] (lit "B.") [lit "C."]
              Hsplit) as [Hend Hstart].
  split; [apply Hend | apply Hstart]; discriminate.
Defined.

Lemma chunks_are_trimmed_witness :
  clean_start long_sentence /\ (long_sentence = [] \/ solid_end long_sentence).
Proof.
  assert (H : In long_sentence (split_chunks long_text))
    by (vm_compute; left; reflexivity).
  exact (@chunks_are_trimmed long_text long_sentence H).
Defined.

Lemma text_within_limit_witness :
  split_chunks (lit "A. B. C.") = [lit "A. B. C."].
Proof.
  assert (Hne : lit "A. B. C." <> []) by discriminate.
  assert (Hlen : length (lit "A. B. C.") <= 240)
    by (apply Nat.leb_le; reflexivity).
  rewrite (@text_within_limit_is_one_chunk (lit "A. B. C.") Hne Hlen).
  vm_compute. reflexivity.
Defined.

Lemma upstream_called_witness :
  length (upstream_calls
            (serve (chat_handler sample_key None upstream_429 sample_stringify
                      sample_number_toString) hello_body)) <= 1.
Proof.
  exact (proj1 (@upstream_called_at_most_once_with_the_key
                  sample_key None upstream_429 sample_stringify
                  sample_number_toString hello_body _ (or_introl eq_refl))).
Defined.


Lemma max_output_tokens_witness :
  get_prop (lit "maxOutputTokens")
    (get_prop (lit "generationConfig")
       (gemini_body (Some (lit " 1024 tokens")) (lit "prompt")))
  = VNum 1024%float.
Proof.
  assert (Hrest : forall c r, lit " tokens" = c :: r -> is_digit c = false)
    by (intros c r [= <- _]; reflexivity).
  exact (proj1 (@max_output_tokens_setting (lit " ") 1024%N (lit " tokens")
                  (lit "prompt") eq_refl Hrest)).
Defined.

Lemma older_copy_chat_witness :
  res (serve (ServerJs.chat_handler sample_key upstream_429 sample_stringify
                sample_number_toString) workout_body)
  = res (serve (chat_handler sample_key None upstream_429 sample_stringify
                  sample_number_toString) workout_body).
Proof.
  assert (Hreply : localFallback
                     (get_prop (lit "message") (body_or_empty workout_body))
                   <> inr greeting_reply).
  { vm_compute. intros H. discriminate H. }
  exact (proj1 (@older_copy_chat_agrees
                  sample_key None upstream_429 sample_stringify
                  sample_number_toString workout_body
                  (fun p => eq_refl) Hreply)).
Defined.

Lemma naiveExplain_witness :
  exists entries,
    naiveExplain (VStr sample_code) (VStr (lit "line"))
    = inr (join (nl ++ nl) entries)
    /\ length entries = 2
    /\ In (line_entry 2 (lit "return x")) entries.
Proof.
  destruct (@naiveExplain_line_by_line sample_code (VStr (lit "line"))
              (conj eq_refl (conj eq_refl eq_refl)))
    as (entries & Hres & Hlen & Hin).
  exists entries. split; [exact Hres|]. split; [exact Hlen|].
  apply Hin. exists 2, (lit "return x").
  split; [vm_compute; reflexivity|]. split; [discriminate | reflexivity].
Defined.



Lemma non_text_message_witness :
  res (serve (chat_handler None None upstream_429 sample_stringify
                sample_number_toString) number_body)
  = json_response 500 (error_obj "Server error").
Proof.
  assert (Hnt : forall t,
             get_prop (lit "message") (body_or_empty number_body) <> VStr t)
    by (intros t; vm_compute; discriminate).
  exact (proj1 (@non_text_message_needs_the_upstream
                  None None upstream_429 sample_stringify sample_number_toString
                  number_body eq_refl Hnt) eq_refl).
Defined.

(** The remaining examples of the specification. *)

(** A short answer is streamed as one line, and the stream is closed. *)
Example stream_short_answer_is_one_line :
  res (serve (explain_stream_handler sample_key None
                (upstream_200 (answer_with (VStr (lit "A. B. C."))))
                sample_stringify sample_number_toString) code_body)
  = {| statusCode := 200;
       headers := [(lit "Content-Type", lit "text/plain; charset=utf-8");
                   (lit "Cache-Control", lit "no-cache");
                   (lit "Connection", lit "keep-alive")];
       out := [Text (lit "A. B. C." ++ nl)];
       ended := true |}.
Proof. vm_compute. reflexivity. Qed.

(** When the upstream fails, the stream carries the error line, with
    status 502, and is closed. *)
Example stream_upstream_failure_is_error_line :
  let r := res (serve (explain_stream_handler sample_key None upstream_429
                         sample_stringify sample_number_toString) code_body) in
  statusCode r = 502%N
  /\ out r = [Text (lit "Error: Gemini API failed" ++ nl)]
  /\ ended r = true.
Proof. vm_compute. repeat split. Qed.

(** A request without a body is refused. *)
Example chat_empty_body_is_refused :
  serve (chat_handler sample_key None upstream_429 sample_stringify
           sample_number_toString) VUndefined
  = refused "No message provided".
Proof. reflexivity. Qed.

(** A [message] that is not text passes the validation when it is
    truthy, but the Local Fallback Responder cannot lower-case it: with
    the upstream failing, the request ends in the internal error. *)
Example chat_number_message_is_internal_error :
  res (serve (chat_handler sample_key None upstream_429 sample_stringify
                sample_number_toString) number_body)
  = json_response 500 (error_obj "Server error").
Proof. vm_compute. reflexivity. Qed.

(** [parseInt] on the override. *)
Example max_output_tokens_override :
  defaultMax (Some (lit "1024")) = 1024%float
  /\ defaultMax None = 512%float
  /\ defaultMax (Some []) = 512%float.
Proof. repeat split. Qed.

(** The older copy sends an empty [generationConfig], and its greeting
    does not have the dash. *)
Lemma older_copy_generation_config_is_empty (promptText : jsstring) :
  get_prop (lit "generationConfig") (ServerJs.gemini_body promptText) = VObj []
  /\ get_prop (lit "contents") (ServerJs.gemini_body promptText)
     = get_prop (lit "contents") (gemini_body None promptText).
Proof. split; reflexivity. Qed.

Lemma older_copy_greeting :
  ServerJs.localFallback (VStr (lit "hello")) = inr ServerJs.greeting_reply
  /\ firstn 4 ServerJs.greeting_reply = lit "Hey "
  /\ firstn 18 ServerJs.greeting_reply <> firstn 18 greeting_reply.
Proof. repeat split; vm_compute; discriminate. Qed.
